(** * ScenePlayer: the scene sequencer of [src/components/ScenePlayer.tsx]

    A shallow embedding of the timing core of the [ScenePlayer] component:
    the static scene list, the four [useState] cells, the [useEffect] that
    drives the animation through [requestAnimationFrame], the derived
    timeline progress and the replay handler; and of what the component
    draws from its state: the scene layers, the overlay figures, the five
    scene components with their easing curves, and the ambient particles.

    Conventions of the embedding.
    - A JavaScript [number] that holds a time or a fraction is an exact
      rational ([Q]); one that holds an index, a counter or a whole number of
      milliseconds is a [nat] or a [Z].  The statements proved on this model
      are those the rounding of doubles does not disturb; [Binary64] repeats
      the sequencer over binary64 values for what the rounding decides.
    - The state setters called during one callback are collected in call
      order and committed together (React batches them), see [commit].
    - The two clocks the component reads are inputs: the [timestamp] the
      host passes to a frame callback and the value [performance.now()]
      returns when an effect body runs ([now]).
    - The host's frame queue is explicit ([Host]): handles are handed out
      in sequence, a delivered or cancelled callback leaves the queue. *)

From Stdlib Require Import ZArith QArith Qminmax Qround List Sorted Bool Arith Lia Lqa String.
From Stdlib Require Import Floats.

#[local] Set Warnings "-inexact-float".
Import ListNotations.
Open Scope Q_scope.

(** ** Scenes *)

(** [SceneDefinition], without the presentation-only fields [caption] and
    [render]. *)
Record SceneDefinition := {
  id : string;
  title : string;
  duration : Z
}.

(** [clamp(value, min, max) = Math.min(max, Math.max(min, value))]. *)
Definition clamp (value min max : Q) : Q := Qmin max (Qmax min value).

Definition SCENES : list SceneDefinition := [
  {| id := "wake";      title := "First Light";         duration := 6500 |};
  {| id := "panorama";  title := "Penthouse Panorama";  duration := 7200 |};
  {| id := "portfolio"; title := "Assets in Motion";    duration := 6200 |};
  {| id := "balcony";   title := "Morning Air";         duration := 7000 |};
  {| id := "heli";      title := "Helipad Arrival";     duration := 7200 |}
].

(** [scenes.reduce((accumulator, scene) => accumulator + scene.duration, 0)] *)
Definition sumDurations (scenes : list SceneDefinition) : Z :=
  fold_left (fun accumulator scene => (accumulator + duration scene)%Z) scenes 0%Z.

Definition TOTAL_DURATION : Z := sumDurations SCENES.

(** ** Component state *)

(** The four [useState] cells; [runId] is the run generation. *)
Record PlayerState := {
  sceneIndex : nat;
  sceneProgress : Q;
  runId : nat;
  isComplete : bool
}.

Definition initialState : PlayerState :=
  {| sceneIndex := 0; sceneProgress := 0; runId := 0; isComplete := false |}.

(** A call of one of the state setters.  [setSceneIndex] and [setRunId]
    take an updater function of the previous value. *)
Inductive SetState :=
| setSceneIndex (updater : nat -> nat)
| setSceneProgress (value : Q)
| setRunId (updater : nat -> nat)
| setIsComplete (value : bool).

Definition applySetState (st : PlayerState) (u : SetState) : PlayerState :=
  match u with
  | setSceneIndex f =>
      {| sceneIndex := f (sceneIndex st); sceneProgress := sceneProgress st;
         runId := runId st; isComplete := isComplete st |}
  | setSceneProgress v =>
      {| sceneIndex := sceneIndex st; sceneProgress := v;
         runId := runId st; isComplete := isComplete st |}
  | setRunId f =>
      {| sceneIndex := sceneIndex st; sceneProgress := sceneProgress st;
         runId := f (runId st); isComplete := isComplete st |}
  | setIsComplete b =>
      {| sceneIndex := sceneIndex st; sceneProgress := sceneProgress st;
         runId := runId st; isComplete := b |}
  end.

(** The state after a batch of setter calls, applied in call order. *)
Definition commit (updates : list SetState) (st : PlayerState) : PlayerState :=
  fold_left applySetState updates st.

(** ** The animation effect *)

(** The variables a [step] closure captures from its effect body:
    the [sceneIndex] of that render, [scene = SCENES[sceneIndex]]
    ([None] is [undefined]) and [start = performance.now()]. *)
Record Effect := {
  eff_sceneIndex : nat;
  scene : option SceneDefinition;
  start : Q
}.

(** [step(timestamp)]: the setter calls it makes, in order, and whether it
    requests another frame.  [None] is the [TypeError] of reading
    [scene.duration] of [undefined], raised before any setter is called. *)
Definition step (e : Effect) (timestamp : Q) : option (list SetState * bool) :=
  match scene e with
  | None => None
  | Some sc =>
      let elapsed := timestamp - start e in
      let progress := clamp (elapsed / inject_Z (duration sc)) 0 1 in
      if Qle_bool 1 progress then
        if (List.length SCENES - 1 <=? eff_sceneIndex e)%nat then
          Some ([setSceneProgress progress;
                 setSceneProgress 1;
                 setIsComplete true], false)
        else
          Some ([setSceneProgress progress;
                 setSceneProgress 0;
                 setSceneIndex (fun previous =>
                                  Nat.min (previous + 1) (List.length SCENES - 1))],
                false)
      else
        Some ([setSceneProgress progress], true)
  end.

(** The host's frame queue: pending callbacks by handle, and the next
    handle [requestAnimationFrame] returns. *)
Record Host := {
  frames : list (nat * Effect);
  nextHandle : nat
}.

Definition requestAnimationFrame (callback : Effect) (h : Host) : nat * Host :=
  (nextHandle h,
   {| frames := frames h ++ [(nextHandle h, callback)];
      nextHandle := S (nextHandle h) |}).

Definition cancelAnimationFrame (handle : nat) (h : Host) : Host :=
  {| frames := filter (fun entry => negb (fst entry =? handle)%nat) (frames h);
     nextHandle := nextHandle h |}.

Fixpoint pendingCallback (handle : nat) (queue : list (nat * Effect))
  : option Effect :=
  match queue with
  | [] => None
  | (h, callback) :: rest =>
      if (h =? handle)%nat then Some callback else pendingCallback handle rest
  end.

(** The mounted component: its state, the live effect instance (closure
    variables, dependency array [[sceneIndex, runId]] and the mutable
    [animationFrame] variable) and the host queue. *)
Record Player := {
  state : PlayerState;
  effect : Effect;
  deps : nat * nat;
  animationFrame : nat;
  host : Host
}.

(** The effect body, run with the clock reading [now]. *)
Definition useEffect (now : Q) (st : PlayerState) (h : Host) : Player :=
  let e := {| eff_sceneIndex := sceneIndex st;
              scene := nth_error SCENES (sceneIndex st);
              start := now |} in
  let (handle, h') := requestAnimationFrame e h in
  {| state := st; effect := e; deps := (sceneIndex st, runId st);
     animationFrame := handle; host := h' |}.

Definition depsChanged (p : Player) : bool :=
  negb ((fst (deps p) =? sceneIndex (state p))%nat
        && (snd (deps p) =? runId (state p))%nat).

(** After a commit: when a dependency changed, the cleanup of the live
    effect cancels [animationFrame] and the effect body runs again. *)
Definition rerender (now : Q) (p : Player) : Player :=
  if depsChanged p
  then useEffect now (state p) (cancelAnimationFrame (animationFrame p) (host p))
  else p.

Definition mount (now : Q) : Player :=
  useEffect now initialState {| frames := []; nextHandle := 1 |}.

(** ** Render output *)

(** [SCENES.slice(0, sceneIndex).reduce(...)]. *)
Definition elapsedBeforeScene (st : PlayerState) : Z :=
  sumDurations (firstn (sceneIndex st) SCENES).

(** [timelineProgress]; [None] is the [TypeError] of
    [SCENES[sceneIndex].duration] for an index outside the list. *)
Definition timelineProgress (st : PlayerState) : option Q :=
  if isComplete st then Some 1
  else
    match nth_error SCENES (sceneIndex st) with
    | None => None
    | Some sc =>
        Some ((inject_Z (elapsedBeforeScene st)
               + sceneProgress st * inject_Z (duration sc))
              / inject_Z TOTAL_DURATION)
    end.

(** [handleReplay]: its four setter calls, in order.  [setSceneIndex(0)]
    is the updater that ignores the previous value. *)
Definition handleReplay : list SetState :=
  [setSceneIndex (fun _ => 0%nat);
   setSceneProgress 0;
   setRunId (fun id => (id + 1)%nat);
   setIsComplete false].

(** [{isComplete && <button onClick={handleReplay}>}]: the click handler of
    the replay button when the button is in the output. *)
Definition replayButton (st : PlayerState) : option (list SetState) :=
  if isComplete st then Some handleReplay else None.

(** ** Events *)

Inductive Event :=
| Frame (handle : nat) (timestamp now : Q)
    (** the host delivers the callback registered under [handle] (if it is
        still pending) with [timestamp]; [now] is the clock reading of the
        effect body should the commit re-run it *)
| Click (now : Q)
    (** the user clicks where the replay button is drawn *)
| Replay (now : Q).
    (** [handleReplay] is invoked directly *)

(** The host runs the callback registered under [handle], if any, after
    taking it off the queue.  A callback that throws makes no setter call
    and requests nothing.  Otherwise its setter calls are committed and the
    component re-renders; a frame the callback requests is stored in
    [animationFrame] when the callback belongs to the live effect, which is
    the case exactly when [handle] is the one that variable holds. *)
Definition deliverFrame (handle : nat) (timestamp now : Q) (p : Player) : Player :=
  match pendingCallback handle (frames (host p)) with
  | None => p
  | Some callback =>
      let h1 := cancelAnimationFrame handle (host p) in
      match step callback timestamp with
      | None =>
          {| state := state p; effect := effect p; deps := deps p;
             animationFrame := animationFrame p; host := h1 |}
      | Some (updates, again) =>
          let st' := commit updates (state p) in
          if again then
            let (handle', h2) := requestAnimationFrame callback h1 in
            rerender now
              {| state := st'; effect := effect p; deps := deps p;
                 animationFrame :=
                   if (handle =? animationFrame p)%nat
                   then handle' else animationFrame p;
                 host := h2 |}
          else
            rerender now
              {| state := st'; effect := effect p; deps := deps p;
                 animationFrame := animationFrame p; host := h1 |}
      end
  end.

(** An event handler runs: its setter calls are committed and the
    component re-renders. *)
Definition invoke (handler : list SetState) (now : Q) (p : Player) : Player :=
  rerender now
    {| state := commit handler (state p); effect := effect p; deps := deps p;
       animationFrame := animationFrame p; host := host p |}.

Definition deliver (ev : Event) (p : Player) : Player :=
  match ev with
  | Frame handle timestamp now => deliverFrame handle timestamp now p
  | Click now =>
      match replayButton (state p) with
      | Some handler => invoke handler now p
      | None => p
      end
  | Replay now => invoke handleReplay now p
  end.

Definition run (evs : list Event) (p : Player) : Player :=
  fold_left (fun q ev => deliver ev q) evs p.

(** The players the component can be in: mounted, then any events. *)
Inductive reachable : Player -> Prop :=
| reach_mount now : reachable (mount now)
| reach_deliver p ev : reachable p -> reachable (deliver ev p).

(** * The sequencer in binary64 *)

(** The same sequencer with every [number] that holds a time or a fraction
    as an IEEE binary64 value, the arithmetic JavaScript performs: each of
    [+], [-], [*], [/] rounds to the nearest double.  It is used where the
    rounding decides what the component does. *)

Module Binary64.

(** [Math.max] and [Math.min]: [NaN] if an argument is; of two zeros,
    [Math.max] prefers the positive and [Math.min] the negative one. *)
Definition Math_max (a b : float) : float :=
  if (is_nan a || is_nan b)%bool then nan
  else if (a <? b)%float then b
  else if (b <? a)%float then a
  else if get_sign a then b else a.

Definition Math_min (a b : float) : float :=
  if (is_nan a || is_nan b)%bool then nan
  else if (a <? b)%float then a
  else if (b <? a)%float then b
  else if get_sign a then a else b.

Definition clamp (value min max : float) : float :=
  Math_min max (Math_max min value).

(** A whole number as a double (exact below 2^53). *)
Fixpoint ofPositive (p : positive) : float :=
  match p with
  | xH => 1%float
  | xO q => (2 * ofPositive q)%float
  | xI q => (2 * ofPositive q + 1)%float
  end.

Definition ofZ (z : Z) : float :=
  match z with
  | Z0 => 0%float
  | Zpos p => ofPositive p
  | Zneg p => (- ofPositive p)%float
  end.

(** [scenes.reduce((accumulator, scene) => accumulator + scene.duration, 0)] *)
Definition sumDurations (scenes : list SceneDefinition) : float :=
  fold_left (fun accumulator scene => (accumulator + ofZ (duration scene))%float)
            scenes 0%float.

Definition TOTAL_DURATION : float := sumDurations SCENES.

Record PlayerState := {
  sceneIndex : nat;
  sceneProgress : float;
  runId : nat;
  isComplete : bool
}.

Definition initialState : PlayerState :=
  {| sceneIndex := 0; sceneProgress := 0%float; runId := 0;
     isComplete := false |}.

Inductive SetState :=
| setSceneIndex (updater : nat -> nat)
| setSceneProgress (value : float)
| setRunId (updater : nat -> nat)
| setIsComplete (value : bool).

Definition applySetState (st : PlayerState) (u : SetState) : PlayerState :=
  match u with
  | setSceneIndex f =>
      {| sceneIndex := f (sceneIndex st); sceneProgress := sceneProgress st;
         runId := runId st; isComplete := isComplete st |}
  | setSceneProgress v =>
      {| sceneIndex := sceneIndex st; sceneProgress := v;
         runId := runId st; isComplete := isComplete st |}
  | setRunId f =>
      {| sceneIndex := sceneIndex st; sceneProgress := sceneProgress st;
         runId := f (runId st); isComplete := isComplete st |}
  | setIsComplete b =>
      {| sceneIndex := sceneIndex st; sceneProgress := sceneProgress st;
         runId := runId st; isComplete := b |}
  end.

Definition commit (updates : list SetState) (st : PlayerState) : PlayerState :=
  fold_left applySetState updates st.

Record Effect := {
  eff_sceneIndex : nat;
  scene : option SceneDefinition;
  start : float
}.

(** [step(timestamp)]; [progress >= 1] is the comparison of doubles. *)
Definition step (e : Effect) (timestamp : float)
  : option (list SetState * bool) :=
  match scene e with
  | None => None
  | Some sc =>
      let elapsed := (timestamp - start e)%float in
      let progress :=
        clamp (elapsed / ofZ (duration sc))%float 0%float 1%float in
      if (1 <=? progress)%float then
        if (List.length SCENES - 1 <=? eff_sceneIndex e)%nat then
          Some ([setSceneProgress progress;
                 setSceneProgress 1%float;
                 setIsComplete true], false)
        else
          Some ([setSceneProgress progress;
                 setSceneProgress 0%float;
                 setSceneIndex (fun previous =>
                                  Nat.min (previous + 1) (List.length SCENES - 1))],
                false)
      else
        Some ([setSceneProgress progress], true)
  end.

Record Host := {
  frames : list (nat * Effect);
  nextHandle : nat
}.

Definition requestAnimationFrame (callback : Effect) (h : Host) : nat * Host :=
  (nextHandle h,
   {| frames := frames h ++ [(nextHandle h, callback)];
      nextHandle := S (nextHandle h) |}).

Definition cancelAnimationFrame (handle : nat) (h : Host) : Host :=
  {| frames := filter (fun entry => negb (fst entry =? handle)%nat) (frames h);
     nextHandle := nextHandle h |}.

Fixpoint pendingCallback (handle : nat) (queue : list (nat * Effect))
  : option Effect :=
  match queue with
  | [] => None
  | (h, callback) :: rest =>
      if (h =? handle)%nat then Some callback else pendingCallback handle rest
  end.

Record Player := {
  state : PlayerState;
  effect : Effect;
  deps : nat * nat;
  animationFrame : nat;
  host : Host
}.

Definition useEffect (now : float) (st : PlayerState) (h : Host) : Player :=
  let e := {| eff_sceneIndex := sceneIndex st;
              scene := nth_error SCENES (sceneIndex st);
              start := now |} in
  let (handle, h') := requestAnimationFrame e h in
  {| state := st; effect := e; deps := (sceneIndex st, runId st);
     animationFrame := handle; host := h' |}.

Definition depsChanged (p : Player) : bool :=
  negb ((fst (deps p) =? sceneIndex (state p))%nat
        && (snd (deps p) =? runId (state p))%nat).

Definition rerender (now : float) (p : Player) : Player :=
  if depsChanged p
  then useEffect now (state p) (cancelAnimationFrame (animationFrame p) (host p))
  else p.

Definition mount (now : float) : Player :=
  useEffect now initialState {| frames := []; nextHandle := 1 |}.

Definition elapsedBeforeScene (st : PlayerState) : float :=
  sumDurations (firstn (sceneIndex st) SCENES).

Definition timelineProgress (st : PlayerState) : option float :=
  if isComplete st then Some 1%float
  else
    match nth_error SCENES (sceneIndex st) with
    | None => None
    | Some sc =>
        Some ((elapsedBeforeScene st + sceneProgress st * ofZ (duration sc))
              / TOTAL_DURATION)%float
    end.

(** The host delivers the callback registered under [handle] with
    [timestamp]; [now] is the clock reading of an effect body that runs
    after the commit. *)
Definition deliverFrame (handle : nat) (timestamp now : float) (p : Player)
  : Player :=
  match pendingCallback handle (frames (host p)) with
  | None => p
  | Some callback =>
      let h1 := cancelAnimationFrame handle (host p) in
      match step callback timestamp with
      | None =>
          {| state := state p; effect := effect p; deps := deps p;
             animationFrame := animationFrame p; host := h1 |}
      | Some (updates, again) =>
          let st' := commit updates (state p) in
          if again then
            let (handle', h2) := requestAnimationFrame callback h1 in
            rerender now
              {| state := st'; effect := effect p; deps := deps p;
                 animationFrame :=
                   if (handle =? animationFrame p)%nat
                   then handle' else animationFrame p;
                 host := h2 |}
          else
            rerender now
              {| state := st'; effect := effect p; deps := deps p;
                 animationFrame := animationFrame p; host := h1 |}
      end
  end.

(** A run of frames, each given as handle, timestamp and clock reading. *)
Definition run (ticks : list (nat * float * float)) (p : Player) : Player :=
  fold_left (fun q tick =>
               deliverFrame (fst (fst tick)) (snd (fst tick)) (snd tick) q)
            ticks p.

End Binary64.

(** * The scene renderers *)

(** Each scene component is a function of [progress] alone; what it
    computes is the set of numbers it writes into inline styles and text.
    The embedding keeps these numbers, named after the local constants of
    the component and the element they style, and drops the fixed markup. *)

(** ** Easing and rounding *)

(** [x < y] on numbers. *)
Definition Qltb (x y : Q) : bool := negb (Qle_bool y x).

(** [1 - Math.pow(1 - t, 3)]. *)
Definition easeOutCubic (t : Q) : Q := 1 - (1 - t) ^ 3.

(** [t < 0.5 ? 4 * t * t * t : 1 - Math.pow(-2 * t + 2, 3) / 2]. *)
Definition easeInOutCubic (t : Q) : Q :=
  if Qltb t 0.5 then 4 * t * t * t else 1 - (-2 * t + 2) ^ 3 / 2.

(** [1 - Math.pow(1 - t, 4)]. *)
Definition easeOutQuart (t : Q) : Q := 1 - (1 - t) ^ 4.

(** [Math.round]: the nearest integer, a half rounding up. *)
Definition Math_round (x : Q) : Z := Qfloor (x + 0.5).

(** ** Static tables *)

Record Building := {
  building_left : string;
  building_width : string;
  base : Z
}.

Definition BUILDINGS : list Building := [
  {| building_left := "6%";  building_width := "7%";  base := 42 |};
  {| building_left := "13%"; building_width := "6%";  base := 56 |};
  {| building_left := "21%"; building_width := "9%";  base := 62 |};
  {| building_left := "31%"; building_width := "8%";  base := 48 |};
  {| building_left := "40%"; building_width := "6%";  base := 38 |};
  {| building_left := "48%"; building_width := "12%"; base := 66 |};
  {| building_left := "62%"; building_width := "7%";  base := 52 |};
  {| building_left := "70%"; building_width := "9%";  base := 60 |};
  {| building_left := "80%"; building_width := "8%";  base := 45 |}
].

Definition CHART_POINTS : list Q := [0.12; 0.24; 0.52; 0.36; 0.68; 0.5; 0.82].

Record Particle := {
  particle_left : nat;
  particle_top : nat;
  delay : Q;
  size : nat
}.

(** The element [Array.from] builds at [index]. *)
Definition particle (index : nat) : Particle :=
  {| particle_left := (index * 37) mod 100 + 2;
     particle_top := (index * 53) mod 100 + 4;
     delay := inject_Z (Z.of_nat ((index * 97) mod 14)) / 10;
     size := (index * 13) mod 4 + 2 |}.

(** [Array.from({ length: 22 }, (_, index) => ...)]. *)
Definition PARTICLES : list Particle := map particle (seq 0 22).

(** ** WakeUpScene *)

Module WakeUpScene.

Definition openness (progress : Q) : Q :=
  easeOutCubic (clamp (progress * 1.5) 0 1).

Definition sunlight (progress : Q) : Q := clamp ((progress - 0.1) * 1.2) 0 1.

Definition curtainShadow (progress : Q) : Q :=
  clamp (1 - progress * 1.35) 0 1.

Definition blink (progress : Q) : Q :=
  if Qltb 0.58 progress && Qltb progress 0.66
  then 1 - easeOutQuart (clamp ((progress - 0.58) / 0.08) 0 1)
  else 0.

Definition eyelidCover (progress : Q) : Q :=
  clamp (1 - openness progress + blink progress) 0 1.

Record Style := {
  roomBrightness : Q;
  glowScale : Q;
  glowTranslateY : Q;
  canopyBrightness : Q;
  curtainTranslateX : Q;
  sunOpacity : Q;
  upperLidHeight : Q;
  lowerLidHeight : Q;
  highlightOpacity : Q
}.

Definition render (progress : Q) : Style :=
  {| roomBrightness := 0.75 + sunlight progress * 0.5;
     glowScale := 1 + sunlight progress * 0.4;
     glowTranslateY := sunlight progress * -10;
     canopyBrightness := 0.8 + sunlight progress * 0.5;
     curtainTranslateX := curtainShadow progress * 18 - 6;
     sunOpacity := sunlight progress;
     upperLidHeight := eyelidCover progress * 48 + 2;
     lowerLidHeight := eyelidCover progress * 46 + 2;
     highlightOpacity := openness progress |}.

End WakeUpScene.

(** ** PenthouseScene *)

Module PenthouseScene.

Definition curtainOpen (progress : Q) : Q :=
  easeOutCubic (clamp (progress * 1.4) 0 1).

Definition skylineGlow (progress : Q) : Q :=
  clamp ((progress - 0.12) * 1.4) 0 1.

Definition kineticGlow (progress : Q) : Q :=
  clamp ((progress - 0.35) * 1.6) 0 1.

Record Tower := {
  towerHeight : Q;
  towerOpacity : Q;
  towerTranslateY : Q;
  antennaOpacity : Q
}.

Record Style := {
  veilOpacity : Q;
  seaOpacity : Q;
  seaScale : Q;
  seaTranslateX : Q;
  seaTranslateY : Q;
  towers : list Tower;
  sculptureOpacity : Q;
  sculptureHue : Q;
  sculptureCoreOpacity : Q
}.

Definition render (progress : Q) : Style :=
  {| veilOpacity := 1 - curtainOpen progress * 0.92;
     seaOpacity := curtainOpen progress;
     seaScale := 1 + skylineGlow progress * 0.04;
     seaTranslateX := (0.5 - skylineGlow progress) * 4;
     seaTranslateY := (1 - skylineGlow progress) * 6;
     towers :=
       map (fun building =>
              {| towerHeight :=
                   inject_Z (base building) + skylineGlow progress * 18;
                 towerOpacity := 0.35 + skylineGlow progress * 0.55;
                 towerTranslateY := (1 - curtainOpen progress) * 8;
                 antennaOpacity := 0.2 + skylineGlow progress * 0.5 |})
           BUILDINGS;
     sculptureOpacity := 0.3 + kineticGlow progress * 0.6;
     sculptureHue := kineticGlow progress * 45;
     sculptureCoreOpacity := kineticGlow progress |}.

End PenthouseScene.

(** ** PortfolioScene *)

Module PortfolioScene.

Record Bar := { barHeight : Q; barOpacity : Q }.

Record Style := {
  balance : Z;
  delta : Z;
  crypto : Z;
  art : Z;
  yacht : Z;
  bars : list Bar
}.

Definition render (progress : Q) : Style :=
  {| balance := 184650000 + Math_round (progress * 4200000);
     delta := 128000 + Math_round (progress * 210000);
     crypto := 32400000 + Math_round (progress * 1600000);
     art := 18200000 + Math_round (progress * 620000);
     yacht := 72000000 + Math_round (progress * 2500000);
     bars :=
       map (fun point =>
              {| barHeight := 40 + point * 80 + progress * 20;
                 barOpacity := 0.3 + point * 0.7 |})
           CHART_POINTS |}.

End PortfolioScene.

(** ** BalconyScene *)

Module BalconyScene.

Definition stride (progress : Q) : Q := easeInOutCubic progress.

Definition horizonGlow (progress : Q) : Q :=
  clamp ((progress - 0.12) * 1.4) 0 1.

Definition yachtReveal (progress : Q) : Q :=
  clamp ((progress - 0.4) * 1.8) 0 1.

Record Style := {
  skyOpacity : Q;
  deckTranslateY : Q;
  deckScale : Q;
  poolTranslateY : Q;
  horizonOpacity : Q;
  horizonBlur : Q;
  yachtOpacity : Q;
  yachtTranslateY : Q
}.

Definition render (progress : Q) : Style :=
  {| skyOpacity := 0.35 + horizonGlow progress * 0.6;
     deckTranslateY := (1 - stride progress) * 28;
     deckScale := 0.95 + stride progress * 0.15;
     poolTranslateY := (1 - stride progress) * 40;
     horizonOpacity := 0.4 + horizonGlow progress * 0.6;
     horizonBlur := 4 - horizonGlow progress * 2;
     yachtOpacity := yachtReveal progress;
     yachtTranslateY := (1 - yachtReveal progress) * 30 |}.

End BalconyScene.

(** ** HelipadScene *)

Module HelipadScene.

Definition rotorPower (progress : Q) : Q :=
  clamp ((progress - 0.12) * 1.4) 0 1.

Definition lightSweep (progress : Q) : Q :=
  clamp ((progress - 0.4) * 1.4) 0 1.

Definition departure (progress : Q) : Q :=
  clamp ((progress - 0.65) * 2) 0 1.

Record Style := {
  hubScale : Q;
  rotorDuration : Q;
  rotorOpacity : Q;
  counterRotorDuration : Q;
  counterRotorOpacity : Q;
  panelOpacity : Q;
  panelScale : Q;
  skidOpacity : Q;
  skidTranslateY : Q
}.

Definition render (progress : Q) : Style :=
  {| hubScale := 1 + departure progress * 0.08;
     rotorDuration := Qmax 0.3 (1.1 - rotorPower progress * 0.8);
     rotorOpacity := 0.3 + rotorPower progress * 0.7;
     counterRotorDuration := Qmax 0.3 (1.2 - rotorPower progress * 0.8);
     counterRotorOpacity := 0.15 + rotorPower progress * 0.5;
     panelOpacity := 0.2 + lightSweep progress * 0.8;
     panelScale := 0.9 + lightSweep progress * 0.1;
     skidOpacity := 0.2 + departure progress * 0.6;
     skidTranslateY := departure progress * -10 |}.

End HelipadScene.

(** ** The layers and the overlay of [ScenePlayer] *)

(** What the [render] field of the scene at [index] draws. *)
Inductive SceneFrame :=
| WakeUpFrame (style : WakeUpScene.Style)
| PenthouseFrame (style : PenthouseScene.Style)
| PortfolioFrame (style : PortfolioScene.Style)
| BalconyFrame (style : BalconyScene.Style)
| HelipadFrame (style : HelipadScene.Style).

Definition renderScene (index : nat) (progress : Q) : option SceneFrame :=
  match index with
  | 0%nat => Some (WakeUpFrame (WakeUpScene.render progress))
  | 1%nat => Some (PenthouseFrame (PenthouseScene.render progress))
  | 2%nat => Some (PortfolioFrame (PortfolioScene.render progress))
  | 3%nat => Some (BalconyFrame (BalconyScene.render progress))
  | 4%nat => Some (HelipadFrame (HelipadScene.render progress))
  | _ => None
  end.

(** One entry of [SCENES.map((scene, index) => ...)]: the layer's opacity,
    whether it takes pointer events, and the progress handed to the scene. *)
Record Layer := {
  opacity : Q;
  pointerEvents : bool;
  visibleProgress : Q
}.

Definition layer (st : PlayerState) (index : nat) : Layer :=
  {| opacity :=
       if (index =? sceneIndex st)%nat then 1
       else if (index <? sceneIndex st)%nat then 0 else 0;
     pointerEvents := (index =? sceneIndex st)%nat;
     visibleProgress :=
       if (index <? sceneIndex st)%nat then 1
       else if (index =? sceneIndex st)%nat then sceneProgress st else 0 |}.

Definition layers (st : PlayerState) : list Layer :=
  map (layer st) (seq 0 (List.length SCENES)).

(** The amount under TOTAL NET WORTH:
    [186000000 + Math.round(timelineProgress * 8000000)]. *)
Definition netWorth (st : PlayerState) : option Z :=
  option_map (fun progress => (186000000 + Math_round (progress * 8000000))%Z)
             (timelineProgress st).

(** The heading [Scene {sceneIndex + 1} · {activeScene.title}]: the number
    and the title; [None] is the [TypeError] of [activeScene.title]. *)
Definition heading (st : PlayerState) : option (nat * string) :=
  option_map (fun activeScene => ((sceneIndex st + 1)%nat, title activeScene))
             (nth_error SCENES (sceneIndex st)).

(** * Vocabulary of the statements *)

(** What holds of the component after every event: the index is inside
    the scene table; the live effect was created for the current scene and
    generation; while running, exactly its callback is pending and the
    progress is in [0,1); when complete, nothing is pending, the scene is
    the last one and the progress is 1. *)
Record invariant (p : Player) : Prop := {
  inv_index : (sceneIndex (state p) < List.length SCENES)%nat;
  inv_deps : deps p = (sceneIndex (state p), runId (state p));
  inv_eff_index : eff_sceneIndex (effect p) = sceneIndex (state p);
  inv_eff_scene : scene (effect p) = nth_error SCENES (sceneIndex (state p));
  inv_frames :
    frames (host p) =
    if isComplete (state p) then [] else [(animationFrame p, effect p)];
  inv_fresh : (animationFrame p < nextHandle (host p))%nat;
  inv_progress :
    if isComplete (state p)
    then sceneProgress (state p) = 1
         /\ sceneIndex (state p) = (List.length SCENES - 1)%nat
    else 0 <= sceneProgress (state p) /\ sceneProgress (state p) < 1
}.

(** The progress fraction the live [step] closure computes at [timestamp]. *)
Definition progressAt (p : Player) (sc : SceneDefinition) (timestamp : Q) : Q :=
  clamp ((timestamp - start (effect p)) / inject_Z (duration sc)) 0 1.

Definition withProgress (st : PlayerState) (v : Q) : PlayerState :=
  {| sceneIndex := sceneIndex st; sceneProgress := v;
     runId := runId st; isComplete := isComplete st |}.

(** The four things [Frame handle timestamp now] can do to a player that
    satisfies the invariant. *)
Inductive frame_outcome (handle : nat) (timestamp now : Q) (p : Player)
  : Player -> Prop :=
| frame_ignored :
    (isComplete (state p) = true \/ handle <> animationFrame p) ->
    frame_outcome handle timestamp now p p
| frame_progress sc :
    handle = animationFrame p ->
    isComplete (state p) = false ->
    nth_error SCENES (sceneIndex (state p)) = Some sc ->
    progressAt p sc timestamp < 1 ->
    frame_outcome handle timestamp now p
      {| state := withProgress (state p) (progressAt p sc timestamp);
         effect := effect p; deps := deps p;
         animationFrame := nextHandle (host p);
         host := {| frames := [(nextHandle (host p), effect p)];
                    nextHandle := S (nextHandle (host p)) |} |}
| frame_advance sc :
    handle = animationFrame p ->
    isComplete (state p) = false ->
    nth_error SCENES (sceneIndex (state p)) = Some sc ->
    1 <= progressAt p sc timestamp ->
    (S (sceneIndex (state p)) < List.length SCENES)%nat ->
    frame_outcome handle timestamp now p
      (useEffect now
         {| sceneIndex := S (sceneIndex (state p)); sceneProgress := 0;
            runId := runId (state p); isComplete := false |}
         {| frames := []; nextHandle := nextHandle (host p) |})
| frame_complete sc :
    handle = animationFrame p ->
    isComplete (state p) = false ->
    nth_error SCENES (sceneIndex (state p)) = Some sc ->
    1 <= progressAt p sc timestamp ->
    S (sceneIndex (state p)) = List.length SCENES ->
    frame_outcome handle timestamp now p
      {| state := {| sceneIndex := sceneIndex (state p); sceneProgress := 1;
                     runId := runId (state p); isComplete := true |};
         effect := effect p; deps := deps p;
         animationFrame := animationFrame p;
         host := {| frames := []; nextHandle := nextHandle (host p) |} |}.

Definition replayedState (st : PlayerState) : PlayerState :=
  {| sceneIndex := 0; sceneProgress := 0;
     runId := runId st + 1; isComplete := false |}.

Definition isFrame (ev : Event) : bool :=
  match ev with Frame _ _ _ => true | _ => false end.

(** The scene index before the first event and after each event. *)
Fixpoint sceneTrace (evs : list Event) (p : Player) : list nat :=
  sceneIndex (state p) ::
  match evs with
  | [] => []
  | ev :: rest => sceneTrace rest (deliver ev p)
  end.

(** One tick moves the index by zero or one. *)
Definition staysOrNext (a b : nat) : Prop := b = a \/ b = S a.

Definition publishesInUnit (u : SetState) : Prop :=
  match u with
  | setSceneProgress v => 0 <= v <= 1
  | _ => True
  end.

Definition timestamps (evs : list Event) : list Q :=
  flat_map (fun ev => match ev with
                      | Frame _ timestamp _ => [timestamp]
                      | _ => []
                      end) evs.

(** The timeline progress before the first event and after each event. *)
Fixpoint timelineTrace (evs : list Event) (p : Player) : list (option Q) :=
  timelineProgress (state p) ::
  match evs with
  | [] => []
  | ev :: rest => timelineTrace rest (deliver ev p)
  end.

(** Both values are defined and the first is at most the second. *)
Definition timeline_le (a b : option Q) : Prop :=
  match a, b with
  | Some x, Some y => x <= y
  | _, _ => False
  end.

(** A run begins when the component is mounted or replayed. *)
Inductive run_start : Player -> Prop :=
| start_mount now : run_start (mount now)
| start_replay p now : reachable p -> run_start (deliver (Replay now) p).

(** The published progress is not ahead of the clock: any frame from time
    [t] on computes at least the progress the state holds. *)
Definition paced (t : Q) (p : Player) : Prop :=
  isComplete (state p) = false ->
  forall sc timestamp,
    nth_error SCENES (sceneIndex (state p)) = Some sc ->
    t <= timestamp ->
    sceneProgress (state p) <= progressAt p sc timestamp.

(** The host delivers the pending callback of the live effect at each of
    the given timestamps; an effect body that runs after a tick reads the
    clock at that same instant.  The result lists the component after each
    tick. *)
Fixpoint feed (tss : list Q) (p : Player) : list Player :=
  match tss with
  | [] => []
  | timestamp :: rest =>
      let p' := deliver (Frame (animationFrame p) timestamp timestamp) p in
      p' :: feed rest p'
  end.

(** A list without its consecutive repetitions. *)
Fixpoint visited (l : list nat) : list nat :=
  match l with
  | [] => []
  | a :: rest =>
      match rest with
      | b :: _ => if (a =? b)%nat then visited rest else a :: visited rest
      | [] => [a]
      end
  end.

(** Elapsed time 0, 100, 200, ..., 34100 ms. *)
Definition everyTenthOfSecond : list Q :=
  map (fun k => inject_Z (100 * Z.of_nat k)) (seq 0 342).

(** The state before the first event and after each event. *)
Fixpoint stateTrace (evs : list Event) (p : Player) : list PlayerState :=
  state p ::
  match evs with
  | [] => []
  | ev :: rest => stateTrace rest (deliver ev p)
  end.

(** Both amounts are defined and the first is at most the second. *)
Definition amount_le (a b : option Z) : Prop :=
  match a, b with
  | Some x, Some y => (x <= y)%Z
  | _, _ => False
  end.

(** The frame that ends the active scene: the pending callback of the
    live effect is delivered exactly one scene duration after the effect's
    start, and an effect that runs next reads the clock at that instant. *)
Definition dueFrame (p : Player) : Event :=
  let due := start (effect p)
             + match scene (effect p) with
               | Some sc => inject_Z (duration sc)
               | None => 0
               end in
  Frame (animationFrame p) due due.

(** [n] due frames in a row. *)
Fixpoint playOut (n : nat) (p : Player) : Player :=
  match n with
  | O => p
  | S n' => playOut n' (deliver (dueFrame p) p)
  end.

(** * Properties *)

(** ** The clamp *)

Lemma clamp_unit_range (value : Q) : 0 <= clamp value 0 1 <= 1.
Proof.
  unfold clamp. split.
  - apply Q.min_glb; [lra | apply Q.le_max_l].
  - apply Q.le_min_l.
Qed.

Lemma clamp_monotone (v w : Q) : v <= w -> clamp v 0 1 <= clamp w 0 1.
Proof.
  intros Hvw. unfold clamp.
  apply Q.min_le_compat_l, Q.max_le_compat_l, Hvw.
Qed.

Lemma clamp_below_one (value : Q) :
  Qle_bool 1 (clamp value 0 1) = false -> clamp value 0 1 < 1.
Proof.
  intros Hb. apply Qnot_le_lt. intros Hle.
  apply Qle_bool_iff in Hle. congruence.
Qed.

(** ** The scene table *)

Lemma SCENES_length : List.length SCENES = 5%nat.
Proof. reflexivity. Qed.

Lemma TOTAL_DURATION_value : TOTAL_DURATION = 34100%Z.
Proof. reflexivity. Qed.

(** Every index below the length holds a scene with a positive duration
    whose end lies within the total. *)
Lemma scene_lookup (i : nat) :
  (i < List.length SCENES)%nat ->
  exists sc, nth_error SCENES i = Some sc
             /\ (0 < duration sc)%Z
             /\ (0 <= sumDurations (firstn i SCENES))%Z
             /\ (sumDurations (firstn i SCENES) + duration sc
                 = sumDurations (firstn (S i) SCENES))%Z
             /\ (sumDurations (firstn (S i) SCENES) <= TOTAL_DURATION)%Z.
Proof.
  intros Hi. rewrite SCENES_length in Hi.
  do 5 (destruct i as [|i]; [eexists; repeat split; try reflexivity;
                             vm_compute; congruence|]).
  lia.
Qed.

(** ** The invariant of the mounted component *)

Lemma depsChanged_false (p : Player) :
  deps p = (sceneIndex (state p), runId (state p)) -> depsChanged p = false.
Proof.
  intros H. unfold depsChanged. rewrite H. simpl.
  now rewrite !Nat.eqb_refl.
Qed.

Lemma cancel_only_frame (handle : nat) (e : Effect) (n : nat) :
  cancelAnimationFrame handle {| frames := [(handle, e)]; nextHandle := n |}
  = {| frames := []; nextHandle := n |}.
Proof.
  unfold cancelAnimationFrame. simpl. now rewrite Nat.eqb_refl.
Qed.

(** The effect body establishes the invariant from any fresh, running
    state once the previous frame is out of the queue. *)
Lemma useEffect_invariant (now : Q) (st : PlayerState) (n : nat) :
  (sceneIndex st < List.length SCENES)%nat ->
  isComplete st = false ->
  0 <= sceneProgress st /\ sceneProgress st < 1 ->
  invariant (useEffect now st {| frames := []; nextHandle := n |}).
Proof.
  intros Hi Hc Hp. unfold useEffect. simpl.
  constructor; simpl; try reflexivity; try assumption.
  - now rewrite Hc.
  - lia.
  - now rewrite Hc.
Qed.

Lemma mount_invariant (now : Q) : invariant (mount now).
Proof.
  apply useEffect_invariant; simpl; [lia | reflexivity | lra].
Qed.

(** ** What one delivered frame does *)

Lemma deliverFrame_outcome (handle : nat) (timestamp now : Q) (p : Player) :
  invariant p ->
  frame_outcome handle timestamp now p (deliverFrame handle timestamp now p).
Proof.
  intros [Hi Hd Hei Hes Hf Hn Hp].
  unfold deliverFrame. rewrite Hf.
  destruct (isComplete (state p)) eqn:Hc; simpl.
  { apply frame_ignored. now left. }
  destruct (Nat.eqb_spec (animationFrame p) handle) as [Heq|Hne];
    [subst handle | apply frame_ignored; right; congruence].
  destruct (scene_lookup _ Hi) as (sc & Hsc & Hpos & _).
  unfold step. rewrite Hes, Hsc. fold (progressAt p sc timestamp).
  destruct (host p) as [queue next] eqn:Hh. simpl in Hf. subst queue.
  rewrite cancel_only_frame.
  destruct (Qle_bool 1 (progressAt p sc timestamp)) eqn:Hq.
  - apply Qle_bool_iff in Hq. rewrite Hei.
    destruct (Nat.leb_spec (List.length SCENES - 1) (sceneIndex (state p)))
      as [Hlast|Hmore].
    + assert (Hl : S (sceneIndex (state p)) = List.length SCENES) by lia.
      unfold rerender. rewrite depsChanged_false by (simpl; exact Hd).
      unfold commit. simpl.
      replace next with (nextHandle (host p)) by now rewrite Hh.
      now apply (frame_complete _ _ _ _ sc).
    + assert (Hl : (S (sceneIndex (state p)) < List.length SCENES)%nat) by lia.
      assert (Hmin : Nat.min (sceneIndex (state p) + 1) 4
                     = S (sceneIndex (state p)))
        by (rewrite SCENES_length in Hl; lia).
      assert (Hneq : (sceneIndex (state p) =? S (sceneIndex (state p)))%nat
                     = false) by (apply Nat.eqb_neq; lia).
      unfold rerender, depsChanged, commit. simpl. rewrite Hd. simpl.
      rewrite Hmin, Hneq, Hc. simpl.
      replace next with (nextHandle (host p)) by now rewrite Hh.
      unfold cancelAnimationFrame. simpl.
      now apply (frame_advance _ _ _ _ sc).
  - unfold requestAnimationFrame. simpl. rewrite Nat.eqb_refl.
    unfold rerender. rewrite depsChanged_false by (simpl; exact Hd).
    replace next with (nextHandle (host p)) by now rewrite Hh.
    apply (frame_progress _ _ _ _ sc); auto.
    now apply clamp_below_one.
Qed.

Lemma frame_outcome_invariant handle timestamp now (p p' : Player) :
  invariant p -> frame_outcome handle timestamp now p p' -> invariant p'.
Proof.
  intros Hinv Hout.
  destruct Hout as [ _ | sc _ Hc Hsc Hlt | sc _ Hc Hsc Hge Hl | sc _ Hc Hsc Hge Hl ].
  - exact Hinv.
  - destruct Hinv as [Hi Hd Hei Hes Hf Hn Hp].
    constructor; simpl; auto.
    + now rewrite Hc.
    + rewrite Hc. split; [apply clamp_unit_range | exact Hlt].
  - apply useEffect_invariant; simpl; [exact Hl | reflexivity | lra].
  - destruct Hinv as [Hi Hd Hei Hes Hf Hn Hp].
    constructor; simpl; auto.
Qed.

(** ** What the replay handler does to the mounted component *)

Lemma commit_handleReplay (st : PlayerState) :
  commit handleReplay st = replayedState st.
Proof. reflexivity. Qed.

Lemma invoke_handleReplay (now : Q) (p : Player) :
  invariant p ->
  invoke handleReplay now p
  = useEffect now (replayedState (state p))
      {| frames := []; nextHandle := nextHandle (host p) |}.
Proof.
  intros [Hi Hd Hei Hes Hf Hn Hp].
  unfold invoke, rerender, depsChanged. rewrite commit_handleReplay. simpl.
  rewrite Hd. simpl.
  replace (runId (state p) =? runId (state p) + 1)%nat with false
    by (symmetry; apply Nat.eqb_neq; lia).
  rewrite andb_false_r. simpl.
  f_equal. unfold cancelAnimationFrame. rewrite Hf.
  destruct (isComplete (state p)); simpl; [reflexivity|].
  now rewrite Nat.eqb_refl.
Qed.

Lemma invoke_handleReplay_invariant (now : Q) (p : Player) :
  invariant p -> invariant (invoke handleReplay now p).
Proof.
  intros Hinv. rewrite invoke_handleReplay by exact Hinv.
  apply useEffect_invariant; simpl; [lia | reflexivity | lra].
Qed.

Lemma deliver_invariant (ev : Event) (p : Player) :
  invariant p -> invariant (deliver ev p).
Proof.
  intros Hinv. destruct ev as [handle timestamp now | now | now]; simpl.
  - eapply frame_outcome_invariant; [exact Hinv|].
    now apply deliverFrame_outcome.
  - unfold replayButton. destruct (isComplete (state p)); [|exact Hinv].
    now apply invoke_handleReplay_invariant.
  - now apply invoke_handleReplay_invariant.
Qed.

Lemma reachable_invariant (p : Player) : reachable p -> invariant p.
Proof.
  induction 1 as [now | p ev _ IH].
  - apply mount_invariant.
  - now apply deliver_invariant.
Qed.

Lemma run_invariant (evs : list Event) (p : Player) :
  invariant p -> invariant (run evs p).
Proof.
  revert p. induction evs as [|ev evs IH]; intros p Hinv; simpl.
  - exact Hinv.
  - apply IH. now apply deliver_invariant.
Qed.

Lemma run_reachable (evs : list Event) (p : Player) :
  reachable p -> reachable (run evs p).
Proof.
  revert p. induction evs as [|ev evs IH]; intros p Hr; simpl.
  - exact Hr.
  - apply IH. now constructor.
Qed.

(** ** Traces of a run *)

Lemma frame_outcome_index handle timestamp now (p p' : Player) :
  frame_outcome handle timestamp now p p' ->
  staysOrNext (sceneIndex (state p)) (sceneIndex (state p')).
Proof.
  intros [ | | | ]; simpl; unfold staysOrNext; auto.
Qed.

Lemma sceneTrace_steps (evs : list Event) (p : Player) :
  invariant p -> forallb isFrame evs = true ->
  Sorted staysOrNext (sceneTrace evs p).
Proof.
  revert p. induction evs as [|ev evs IH]; intros p Hinv Hfr; simpl.
  - repeat constructor.
  - simpl in Hfr. apply andb_prop in Hfr as [Hev Hrest].
    destruct ev as [handle timestamp now | |]; try discriminate.
    constructor.
    + apply IH; [now apply (deliver_invariant (Frame _ _ _)) | exact Hrest].
    + destruct evs; simpl; constructor;
        eapply frame_outcome_index, deliverFrame_outcome, Hinv.
Qed.

Lemma staysOrNext_le (l : list nat) :
  Sorted staysOrNext l -> StronglySorted le l.
Proof.
  intros Hs. apply Sorted_StronglySorted; [exact Nat.le_trans|].
  induction Hs as [|a l Hs IH Hhd]; constructor; auto.
  destruct Hhd as [|b l' [-> | ->]]; constructor; lia.
Qed.

Lemma StronglySorted_nth (l : list nat) :
  StronglySorted le l ->
  forall i j a b, (i <= j)%nat ->
    nth_error l i = Some a -> nth_error l j = Some b -> (a <= b)%nat.
Proof.
  induction 1 as [|x l Hs IH Hall]; intros i j a b Hij Hi Hj.
  - destruct i; discriminate.
  - destruct i as [|i], j as [|j]; simpl in *.
    + injection Hi as <-. injection Hj as <-. lia.
    + injection Hi as <-. apply nth_error_In in Hj.
      rewrite Forall_forall in Hall. now apply Hall.
    + lia.
    + apply (IH i j); auto; lia.
Qed.

(** C1: within one run (frames only, no replay), whatever the timestamps,
    every tick leaves the active scene index unchanged or increments it by
    exactly one; the index never decreases; and an index that has been
    left is not visited again. *)
Theorem C1_scene_order (p : Player) (evs : list Event) :
  reachable p -> forallb isFrame evs = true ->
  Sorted staysOrNext (sceneTrace evs p)
  /\ StronglySorted le (sceneTrace evs p)
  /\ (forall i j k a b, (i <= j <= k)%nat ->
        nth_error (sceneTrace evs p) i = Some a ->
        nth_error (sceneTrace evs p) j = Some b ->
        nth_error (sceneTrace evs p) k = Some a ->
        b = a).
Proof.
  intros Hr Hfr.
  assert (Hs : Sorted staysOrNext (sceneTrace evs p))
    by (apply sceneTrace_steps; [now apply reachable_invariant | exact Hfr]).
  assert (Hss := staysOrNext_le _ Hs).
  repeat split; auto.
  intros i j k a b [Hij Hjk] Hi Hj Hk.
  pose proof (StronglySorted_nth _ Hss i j a b Hij Hi Hj).
  pose proof (StronglySorted_nth _ Hss j k b a Hjk Hj Hk).
  lia.
Qed.

Lemma C1_scene_order_witness :
  let evs := [Frame 1 3000 3001; Frame 2 6500 6501; Frame 3 6517 6518] in
  sceneTrace evs (mount 0) = [0; 0; 1; 1]%nat
  /\ Sorted staysOrNext (sceneTrace evs (mount 0)).
Proof.
  split; [reflexivity|].
  apply (C1_scene_order (mount 0)); [constructor | reflexivity].
Defined.

(** ** Replay *)

Lemma rerender_state (now : Q) (p : Player) : state (rerender now p) = state p.
Proof.
  unfold rerender. now destruct (depsChanged p).
Qed.

(** C3: from any playback state the replay handler yields scene 0,
    progress 0, not complete, and the run generation plus exactly one; it
    is a fixed list of setter calls with no input and no failure; a second
    call gives the same state but for the generation.  The same holds of the
    mounted component's state when the handler is invoked on it. *)
Theorem C3_replay_resets :
  (forall st : PlayerState,
      commit handleReplay st
      = {| sceneIndex := 0; sceneProgress := 0;
           runId := runId st + 1; isComplete := false |})
  /\ (forall g : nat,
         commit handleReplay
           {| sceneIndex := 3; sceneProgress := 6 # 10;
              runId := g; isComplete := false |}
         = {| sceneIndex := 0; sceneProgress := 0;
              runId := g + 1; isComplete := false |})
  /\ (forall st : PlayerState,
         commit handleReplay (commit handleReplay st)
         = {| sceneIndex := sceneIndex (commit handleReplay st);
              sceneProgress := sceneProgress (commit handleReplay st);
              runId := runId (commit handleReplay st) + 1;
              isComplete := isComplete (commit handleReplay st) |})
  /\ (forall (p : Player) (now : Q),
         state (deliver (Replay now) p) = commit handleReplay (state p)).
Proof.
  repeat split.
  intros p now. simpl. unfold invoke. now rewrite rerender_state.
Qed.

(** ** The published progress *)

(** C5: whatever the scene and the timestamp (elapsed time below zero or
    beyond the duration included), every value [step] passes to
    [setSceneProgress] lies in [0,1], and so does the progress of the state
    once the callback's updates are committed. *)
Theorem C5_progress_clamped
  (e : Effect) (timestamp : Q) (updates : list SetState) (again : bool) :
  step e timestamp = Some (updates, again) ->
  Forall publishesInUnit updates
  /\ forall st, 0 <= sceneProgress (commit updates st) <= 1.
Proof.
  unfold step. destruct (scene e) as [sc|]; [|discriminate].
  pose proof (clamp_unit_range
                ((timestamp - start e) / inject_Z (duration sc))) as Hc.
  destruct (Qle_bool 1 _); [destruct (_ <=? _)%nat|];
    intros [= <- <-]; (split; [repeat constructor; simpl; lra|]);
    intros st; unfold commit; simpl; lra.
Qed.

Lemma C5_progress_clamped_witness :
  let e := {| eff_sceneIndex := 1; scene := nth_error SCENES 1;
              start := 1000 |} in
  Forall publishesInUnit [setSceneProgress (clamp ((400 - 1000) / 7200) 0 1)]
  /\ Forall publishesInUnit
       [setSceneProgress (clamp ((9000 - 1000) / 7200) 0 1);
        setSceneProgress 0;
        setSceneIndex (fun previous => Nat.min (previous + 1) 4)].
Proof.
  split.
  - apply (C5_progress_clamped
             {| eff_sceneIndex := 1; scene := nth_error SCENES 1;
                start := 1000 |} 400 _ true).
    reflexivity.
  - apply (C5_progress_clamped
             {| eff_sceneIndex := 1; scene := nth_error SCENES 1;
                start := 1000 |} 9000 _ false).
    reflexivity.
Defined.

(** ** Completion *)

Lemma run_frames_complete (evs : list Event) (p : Player) :
  invariant p -> isComplete (state p) = true ->
  forallb isFrame evs = true -> run evs p = p.
Proof.
  intros Hinv Hc. induction evs as [|ev evs IH]; intros Hfr; simpl.
  - reflexivity.
  - simpl in Hfr. apply andb_prop in Hfr as [Hev Hrest].
    destruct ev as [handle timestamp now | |]; try discriminate.
    simpl. unfold deliverFrame.
    rewrite (inv_frames _ Hinv), Hc. simpl. now apply IH.
Qed.

(** C7: once the component is complete no frame callback is pending, the
    scene index is the last one and the progress is pinned to 1; any frame
    the host might still deliver, and any sequence of them, leaves the whole
    component (state and queue) unchanged.  Only the replay handler leaves
    the complete state. *)
Theorem C7_complete_is_stable (p : Player) :
  reachable p -> isComplete (state p) = true ->
  frames (host p) = []
  /\ sceneProgress (state p) = 1
  /\ sceneIndex (state p) = (List.length SCENES - 1)%nat
  /\ (forall handle timestamp now,
         deliver (Frame handle timestamp now) p = p)
  /\ (forall evs, forallb isFrame evs = true -> run evs p = p).
Proof.
  intros Hr Hc. pose proof (reachable_invariant _ Hr) as Hinv.
  pose proof (inv_frames _ Hinv) as Hf. pose proof (inv_progress _ Hinv) as Hp.
  rewrite Hc in Hf, Hp. destruct Hp as [Hp Hi].
  repeat split; auto.
  - intros handle timestamp now.
    apply (run_frames_complete [Frame handle timestamp now]); auto.
  - intros evs Hfr. now apply run_frames_complete.
Qed.

Lemma C7_complete_is_stable_witness :
  let p := run [Frame 1 6500 6500; Frame 2 13700 13700; Frame 3 19900 19900;
                Frame 4 26900 26900; Frame 5 34100 34100] (mount 0) in
  isComplete (state p) = true
  /\ frames (host p) = []
  /\ deliver (Frame 5 34200 34200) p = p.
Proof.
  intros p.
  assert (Hc : isComplete (state p) = true) by (vm_compute; reflexivity).
  assert (Hr : reachable p) by (apply run_reachable; constructor).
  destruct (C7_complete_is_stable p Hr Hc) as (Hf & _ & _ & Hd & _).
  split; [exact Hc | split; [exact Hf | apply Hd]].
Defined.

(** ** The replay button *)

(** C10: the replay button is in the render output exactly when
    [isComplete] is true, and its click handler is [handleReplay]; a click
    while a run is in progress finds no button and changes nothing, a click
    in the complete state is the replay action. *)
Theorem C10_replay_button_only_when_complete :
  (forall st, replayButton st <> None <-> isComplete st = true)
  /\ (forall st handler, replayButton st = Some handler -> handler = handleReplay)
  /\ (forall p now, isComplete (state p) = false -> deliver (Click now) p = p)
  /\ (forall p now, isComplete (state p) = true ->
        deliver (Click now) p = deliver (Replay now) p).
Proof.
  split; [|split; [|split]].
  - intros st. unfold replayButton.
    destruct (isComplete st); split; congruence.
  - intros st handler. unfold replayButton.
    destruct (isComplete st); congruence.
  - intros p now Hc. simpl. unfold replayButton. now rewrite Hc.
  - intros p now Hc. simpl. unfold replayButton. now rewrite Hc.
Qed.

(** ** Stale callbacks *)

Lemma pendingCallback_In (handle : nat) (queue : list (nat * Effect)) :
  (forall cb, ~ In (handle, cb) queue) -> pendingCallback handle queue = None.
Proof.
  induction queue as [|[h cb] rest IH]; intros Hn; simpl.
  - reflexivity.
  - destruct (Nat.eqb_spec h handle) as [->|Hne].
    + exfalso. apply (Hn cb). now left.
    + apply IH. intros cb' Hin. apply (Hn cb'). now right.
Qed.

(** C4: a stale callback never mutates the state.  In every reachable
    component each callback the host holds was scheduled by the live
    effect, whose dependency array carries the scene index and the run
    generation of its scheduling, and these are the current ones.  A replay
    advances the generation by one and the cleanup of the effect cancels the
    callback that was pending: that handle is pending no more, and a frame
    addressed to it leaves the whole component unchanged.  So does, at any
    time, a frame addressed to any handle but the live effect's. *)
Theorem C4_stale_callbacks_cancelled (p : Player) :
  reachable p ->
  (forall handle callback, In (handle, callback) (frames (host p)) ->
     handle = animationFrame p /\ callback = effect p
     /\ deps p = (sceneIndex (state p), runId (state p)))
  /\ (forall now handle callback,
        In (handle, callback) (frames (host p)) ->
        runId (state (deliver (Replay now) p)) = (runId (state p) + 1)%nat
        /\ pendingCallback handle (frames (host (deliver (Replay now) p))) = None
        /\ forall timestamp now',
             deliver (Frame handle timestamp now') (deliver (Replay now) p)
             = deliver (Replay now) p)
  /\ (forall handle timestamp now,
        handle <> animationFrame p ->
        deliver (Frame handle timestamp now) p = p).
Proof.
  intros Hr. pose proof (reachable_invariant _ Hr) as Hinv.
  assert (Hown : forall handle callback,
             In (handle, callback) (frames (host p)) ->
             handle = animationFrame p /\ callback = effect p).
  { intros handle callback Hin. rewrite (inv_frames _ Hinv) in Hin.
    destruct (isComplete (state p)); simpl in Hin; [tauto|].
    destruct Hin as [[= <- <-]|[]]. auto. }
  split; [|split].
  - intros handle callback Hin. destruct (Hown _ _ Hin) as [-> ->].
    repeat split. apply (inv_deps _ Hinv).
  - intros now handle callback Hin. destruct (Hown _ _ Hin) as [-> ->].
    pose proof (inv_fresh _ Hinv) as Hfresh.
    simpl. rewrite (invoke_handleReplay _ _ Hinv).
    assert (Hgone : pendingCallback (animationFrame p)
                      (frames (host (useEffect now (replayedState (state p))
                         {| frames := []; nextHandle := nextHandle (host p) |})))
                    = None).
    { simpl. replace (nextHandle (host p) =? animationFrame p)%nat with false
        by (symmetry; apply Nat.eqb_neq; lia). reflexivity. }
    repeat split; [exact Hgone|].
    intros timestamp now'. unfold deliverFrame. now rewrite Hgone.
  - intros handle timestamp now Hne. cbn [deliver]. unfold deliverFrame.
    rewrite pendingCallback_In; [reflexivity|].
    intros cb Hin. destruct (Hown _ _ Hin) as [Heq _]. contradiction.
Qed.

Lemma C4_stale_callbacks_cancelled_witness :
  let p := deliver (Frame 1 3250 3250) (mount 0) in
  let p' := deliver (Replay 4000) p in
  frames (host p) = [(2%nat, effect (mount 0))]
  /\ runId (state p') = 1%nat
  /\ deliver (Frame 2 4016 4016) p' = p'.
Proof.
  intros p p'.
  assert (Hr : reachable p) by (repeat constructor).
  assert (Hin : In (2%nat, effect (mount 0)) (frames (host p))) by (left; reflexivity).
  destruct (C4_stale_callbacks_cancelled p Hr) as (_ & Hcancel & _).
  destruct (Hcancel 4000 2%nat (effect (mount 0)) Hin) as (Hg & _ & Hd).
  split; [reflexivity | split; [exact Hg | apply Hd]].
Defined.

(** ** Timeline progress *)

Lemma scene_lookup_Q (i : nat) :
  (i < List.length SCENES)%nat ->
  exists sc, nth_error SCENES i = Some sc
             /\ 0 < inject_Z (duration sc)
             /\ 0 <= inject_Z (sumDurations (firstn i SCENES))
             /\ inject_Z (sumDurations (firstn i SCENES)) + inject_Z (duration sc)
                == inject_Z (sumDurations (firstn (S i) SCENES))
             /\ inject_Z (sumDurations (firstn (S i) SCENES))
                <= inject_Z TOTAL_DURATION.
Proof.
  intros Hi. destruct (scene_lookup i Hi) as (sc & Hsc & Hd & He & Hsum & Ht).
  exists sc. repeat split; auto.
  - change 0 with (inject_Z 0). now rewrite <- Zlt_Qlt.
  - change 0 with (inject_Z 0). now rewrite <- Zle_Qle.
  - rewrite <- inject_Z_plus. now rewrite Hsum.
  - now rewrite <- Zle_Qle.
Qed.

Lemma Qdiv_le_compat (a b t : Q) : 0 < t -> a <= b -> a / t <= b / t.
Proof.
  intros Ht Hab. unfold Qdiv. apply Qmult_le_compat_r; [exact Hab|].
  apply Qinv_le_0_compat. lra.
Qed.

(** The fraction [(e + pr * d) / t] when the scene [e .. e + d] lies inside
    the timeline [0 .. t]. *)
Lemma fraction_range (e d t pr : Q) :
  0 <= e -> 0 < d -> e + d <= t -> 0 <= pr -> pr <= 1 ->
  0 <= (e + pr * d) / t <= 1.
Proof.
  intros He Hd Ht Hp0 Hp1. assert (0 < t) by lra.
  assert (0 <= pr * d) by nra. assert (pr * d <= d) by nra.
  split; [apply Qle_shift_div_l | apply Qle_shift_div_r]; lra.
Qed.

Lemma fraction_monotone (e d t pr pr' : Q) :
  0 < d -> 0 < t -> pr <= pr' -> (e + pr * d) / t <= (e + pr' * d) / t.
Proof.
  intros Hd Ht Hp. apply Qdiv_le_compat; [exact Ht|].
  assert (pr * d <= pr' * d) by nra. lra.
Qed.

(** C2 as stated fails in one direction: the timeline progress can be
    exactly 1 while [isComplete] is false.  In binary64, with the last
    scene started at the clock reading 26900.2 and a frame at 34100.2, the
    elapsed time divided by 7200 rounds just below 1, so [step] neither
    completes the run nor stops the loop; yet [26900 + progress * 7200]
    rounds to 34100 and the quotient is exactly 1. *)
Lemma C2_timeline_one_while_running :
  let p := Binary64.run
             [(1%nat, 6500, 6500); (2%nat, 13700, 13700);
              (3%nat, 19900, 19900); (4%nat, 26900, 26900.2);
              (5%nat, 34100.2, 34100.2)]%float
             (Binary64.mount 0%float) in
  Binary64.sceneIndex (Binary64.state p) = 4%nat
  /\ (Binary64.sceneProgress (Binary64.state p) <? 1)%float = true
  /\ Binary64.isComplete (Binary64.state p) = false
  /\ List.length (Binary64.frames (Binary64.host p)) = 1%nat
  /\ Binary64.timelineProgress (Binary64.state p) = Some 1%float.
Proof.
  vm_compute. repeat split.
Qed.

(** C2, amended: in every reachable state the timeline progress is
    defined; it is exactly 1 when [isComplete] is true and otherwise the sum
    of the durations before the active scene plus progress times the active
    duration, over the sum of all durations; it lies in [0,1].  It is a
    function of the state and the scene table alone.  (That it is 1 only
    when [isComplete] is true is not stated: see above.) *)
Theorem C2_timeline_progress (p : Player) :
  reachable p ->
  exists v,
    timelineProgress (state p) = Some v
    /\ 0 <= v <= 1
    /\ (isComplete (state p) = true -> v = 1)
    /\ (isComplete (state p) = false ->
        exists sc,
          nth_error SCENES (sceneIndex (state p)) = Some sc
          /\ v = (inject_Z (sumDurations (firstn (sceneIndex (state p)) SCENES))
                  + sceneProgress (state p) * inject_Z (duration sc))
                 / inject_Z (sumDurations SCENES)).
Proof.
  intros Hr. pose proof (reachable_invariant _ Hr) as Hinv.
  pose proof (inv_progress _ Hinv) as Hp.
  unfold timelineProgress, elapsedBeforeScene.
  destruct (isComplete (state p)) eqn:Hc.
  - exists 1. repeat split; try lra; try discriminate; auto.
  - destruct (scene_lookup_Q _ (inv_index _ Hinv))
      as (sc & Hsc & Hd & He & Hsum & Ht).
    rewrite Hsc. eexists. split; [reflexivity|].
    destruct Hp as [Hp0 Hp1].
    split; [apply fraction_range; lra|].
    split; [discriminate|].
    intros _; exists sc; auto.
Qed.

Lemma C2_timeline_progress_witness :
  let p := deliver (Frame 2 10100 10100) (deliver (Frame 1 6500 6500) (mount 0)) in
  exists v, timelineProgress (state p) = Some v /\ v == 101 # 341.
Proof.
  intros p.
  assert (Hr : reachable p) by (repeat constructor).
  destruct (C2_timeline_progress p Hr) as (v & Hv & _).
  exists v. split; [exact Hv|].
  vm_compute in Hv. injection Hv as <-. reflexivity.
Defined.

(** ** The clock of the next scene *)

(** C8 as stated fails: the start of the next scene is not the timestamp
    of the next repaint.  The transition to scene 1 is decided by the frame
    at 6500; the effect body then reads the clock at 6510 and keeps that as
    [start]; the next repaint, at 6516, already sees 6 ms elapsed. *)
Lemma C8_start_is_not_next_repaint :
  let p1 := deliver (Frame 1 6500 6510) (mount 0) in
  let p2 := deliver (Frame (animationFrame p1) 6516 6520) p1 in
  sceneIndex (state p1) = 1%nat
  /\ start (effect p1) == 6510
  /\ ~ start (effect p1) == 6516
  /\ sceneProgress (state p2) == 6 # 7200
  /\ ~ sceneProgress (state p2) == 0.
Proof.
  vm_compute. repeat split; discriminate.
Qed.

(** C8, amended: when a frame advances the scene, the start of the next
    scene is the clock reading taken by the effect body that runs for the
    new scene, after the transition is committed and before the next
    repaint; the new scene starts at progress 0, and what its first tick
    publishes is computed from that tick's timestamp minus this reading
    alone: nothing of the time the previous scene ran over is carried. *)
Theorem C8_next_scene_clock (p : Player) (handle : nat) (timestamp now : Q) :
  reachable p ->
  sceneIndex (state (deliver (Frame handle timestamp now) p))
  <> sceneIndex (state p) ->
  start (effect (deliver (Frame handle timestamp now) p)) = now
  /\ sceneProgress (state (deliver (Frame handle timestamp now) p)) = 0
  /\ forall timestamp',
       exists sc rest again,
         nth_error SCENES
           (sceneIndex (state (deliver (Frame handle timestamp now) p)))
         = Some sc
         /\ step (effect (deliver (Frame handle timestamp now) p)) timestamp'
            = Some (setSceneProgress
                      (clamp ((timestamp' - now) / inject_Z (duration sc)) 0 1)
                    :: rest, again).
Proof.
  intros Hr. pose proof (reachable_invariant _ Hr) as Hinv.
  change (deliver (Frame handle timestamp now) p)
    with (deliverFrame handle timestamp now p).
  destruct (deliverFrame_outcome handle timestamp now p Hinv)
    as [ _ | sc _ _ _ _ | sc _ _ _ _ Hl | sc _ _ _ _ _ ];
    unfold useEffect, requestAnimationFrame, withProgress;
    cbn [state effect sceneIndex sceneProgress start];
    intros Hne; try congruence.
  split; [reflexivity | split; [reflexivity|]].
  intros timestamp'.
  destruct (scene_lookup _ Hl) as (sc' & Hsc' & _).
  unfold step. cbn [scene start eff_sceneIndex]. rewrite Hsc'. exists sc'.
  destruct (Qle_bool 1 _); [destruct (_ <=? _)%nat|]; eauto.
Qed.

Lemma C8_next_scene_clock_witness :
  let p1 := deliver (Frame 1 6500 6510) (mount 0) in
  sceneIndex (state p1) = 1%nat /\ start (effect p1) = 6510.
Proof.
  split; [reflexivity|].
  apply (C8_next_scene_clock (mount 0) 1 6500 6510); [constructor|].
  vm_compute. discriminate.
Defined.

(** ** Monotonicity of the timeline *)

Lemma progressAt_monotone (p : Player) (sc : SceneDefinition) (t t' : Q) :
  0 < inject_Z (duration sc) -> t <= t' ->
  progressAt p sc t <= progressAt p sc t'.
Proof.
  intros Hd Ht. unfold progressAt.
  apply clamp_monotone, Qdiv_le_compat; [exact Hd | lra].
Qed.

Lemma timeline_le_refl (p : Player) :
  invariant p ->
  timeline_le (timelineProgress (state p)) (timelineProgress (state p)).
Proof.
  intros Hinv. unfold timelineProgress.
  destruct (isComplete (state p)); simpl; [lra|].
  destruct (scene_lookup _ (inv_index _ Hinv)) as (sc & -> & _).
  simpl. lra.
Qed.

Lemma timelineProgress_running (st : PlayerState) (sc : SceneDefinition) :
  isComplete st = false ->
  nth_error SCENES (sceneIndex st) = Some sc ->
  timelineProgress st
  = Some ((inject_Z (sumDurations (firstn (sceneIndex st) SCENES))
           + sceneProgress st * inject_Z (duration sc))
          / inject_Z TOTAL_DURATION).
Proof.
  intros Hc Hsc. unfold timelineProgress, elapsedBeforeScene.
  now rewrite Hc, Hsc.
Qed.

Lemma frame_timeline_le handle timestamp now (t : Q) (p p' : Player) :
  invariant p -> paced t p -> t <= timestamp ->
  frame_outcome handle timestamp now p p' ->
  timeline_le (timelineProgress (state p)) (timelineProgress (state p'))
  /\ paced timestamp p'.
Proof.
  intros Hinv Hpaced Ht Hout.
  pose proof (inv_progress _ Hinv) as Hp.
  destruct (scene_lookup_Q _ (inv_index _ Hinv))
    as (sc0 & Hsc0 & Hd & He & Hsum & Htot).
  assert (HT : 0 < inject_Z TOTAL_DURATION) by lra.
  destruct Hout as [ _ | sc _ Hc Hsc Hlt | sc _ Hc Hsc Hge Hl | sc _ Hc Hsc Hge Hl ];
    [ | rewrite Hc in Hp; rewrite Hsc in Hsc0; injection Hsc0 as ->;
        rewrite (timelineProgress_running _ _ Hc Hsc) .. ].
  - (* the frame is ignored *)
    split; [now apply timeline_le_refl|].
    intros Hc sc ts Hsc Hts. apply Hpaced; auto. lra.
  - (* progress within the scene *)
    split.
    + cbn [state].
      rewrite (timelineProgress_running
                 (withProgress (state p) (progressAt p sc0 timestamp)) sc0 Hc Hsc).
      unfold timeline_le, withProgress; cbn [sceneIndex sceneProgress].
      apply fraction_monotone; auto.
    + intros _ sc ts Hsc' Hts.
      unfold withProgress in Hsc' |- *; cbn [state sceneIndex sceneProgress] in *.
      rewrite Hsc in Hsc'. injection Hsc' as <-.
      change (progressAt p sc0 timestamp <= progressAt p sc0 ts).
      now apply progressAt_monotone.
  - (* the next scene is entered at progress 0 *)
    split.
    + destruct (scene_lookup_Q _ Hl) as (sc1 & Hsc1 & Hd1 & _).
      unfold useEffect, requestAnimationFrame; cbn [state].
      rewrite (timelineProgress_running
                 {| sceneIndex := S (sceneIndex (state p)); sceneProgress := 0;
                    runId := runId (state p); isComplete := false |}
                 sc1 eq_refl Hsc1).
      unfold timeline_le; cbn [sceneIndex sceneProgress].
      apply Qdiv_le_compat; [exact HT|].
      assert (sceneProgress (state p) * inject_Z (duration sc0)
              <= inject_Z (duration sc0)) by nra.
      lra.
    + intros _ sc ts _ _.
      unfold useEffect, requestAnimationFrame; cbn [state sceneProgress].
      apply clamp_unit_range.
  - (* the last scene completes *)
    split.
    + unfold timeline_le, timelineProgress; cbn [state isComplete].
      apply fraction_range; lra.
    + intros Hc'. cbn [state isComplete] in Hc'. discriminate.
Qed.

Lemma timelineTrace_sorted (evs : list Event) (t : Q) (p : Player) :
  invariant p -> paced t p ->
  forallb isFrame evs = true ->
  Sorted Qle (t :: timestamps evs) ->
  Sorted timeline_le (timelineTrace evs p).
Proof.
  revert t p. induction evs as [|ev evs IH]; intros t p Hinv Hpaced Hfr Hs; simpl.
  - repeat constructor.
  - simpl in Hfr. apply andb_prop in Hfr as [Hev Hrest].
    destruct ev as [handle timestamp now | |]; try discriminate.
    simpl in Hs. apply Sorted_inv in Hs as [Hs Hhd].
    apply HdRel_inv in Hhd.
    destruct (frame_timeline_le handle timestamp now t p _ Hinv Hpaced Hhd
                (deliverFrame_outcome handle timestamp now p Hinv))
      as [Hle Hpaced'].
    constructor.
    + apply (IH timestamp); auto.
      now apply (deliver_invariant (Frame _ _ _)).
    + destruct evs; simpl; constructor; exact Hle.
Qed.

Lemma timeline_le_trans (a b c : option Q) :
  timeline_le a b -> timeline_le b c -> timeline_le a c.
Proof.
  destruct a, b, c; simpl; try tauto. apply Qle_trans.
Qed.

Lemma run_start_fresh (p : Player) :
  run_start p ->
  invariant p
  /\ sceneIndex (state p) = 0%nat
  /\ sceneProgress (state p) = 0
  /\ isComplete (state p) = false.
Proof.
  intros [now | q now Hq].
  - split; [apply mount_invariant | repeat split].
  - pose proof (reachable_invariant _ Hq) as Hinv.
    split; [now apply (deliver_invariant (Replay now))|].
    simpl. rewrite (invoke_handleReplay _ _ Hinv). repeat split.
Qed.

(** C6: over one run (from a mount or a replay, frames only, timestamps
    in non-decreasing order, so in particular strictly increasing ones) the
    timeline progress is defined at every tick and never decreases from one
    tick to any later one, scene transitions included; entering a scene at
    progress 0 gives the same timeline value as the scene before it at
    progress 1; and at the start of every run, so right after a replay, the
    timeline progress is 0. *)
Theorem C6_timeline_monotone (p : Player) (evs : list Event) :
  run_start p ->
  forallb isFrame evs = true ->
  Sorted Qle (timestamps evs) ->
  (exists v, timelineProgress (state p) = Some v /\ v == 0)
  /\ (forall i g, (S i < List.length SCENES)%nat ->
        exists v w,
          timelineProgress {| sceneIndex := i; sceneProgress := 1;
                              runId := g; isComplete := false |} = Some v
          /\ timelineProgress {| sceneIndex := S i; sceneProgress := 0;
                                 runId := g; isComplete := false |} = Some w
          /\ v == w)
  /\ StronglySorted timeline_le (timelineTrace evs p).
Proof.
  intros Hstart Hfr Hs.
  destruct (run_start_fresh _ Hstart) as (Hinv & Hi & Hp & Hc).
  split; [|split].
  - unfold timelineProgress, elapsedBeforeScene. rewrite Hc, Hi, Hp. simpl.
    eexists. split; [reflexivity|]. reflexivity.
  - intros i g Hlt. rewrite SCENES_length in Hlt.
    do 4 (destruct i as [|i];
          [do 2 eexists; split; [reflexivity|]; split; reflexivity|]).
    lia.
  - apply Sorted_StronglySorted; [exact timeline_le_trans|].
    assert (Hpaced : forall t, paced t p).
    { intros t _ sc ts _ _. rewrite Hp. apply clamp_unit_range. }
    destruct (timestamps evs) as [|t0 rest] eqn:Hts.
    + apply (timelineTrace_sorted evs 0); auto.
      rewrite Hts. repeat constructor.
    + apply (timelineTrace_sorted evs t0); auto.
      rewrite Hts. constructor; [exact Hs|]. constructor. lra.
Qed.

Lemma C6_timeline_monotone_witness :
  let p := deliver (Replay 50000)
             (run [Frame 1 6500 6500; Frame 2 13700 13700; Frame 3 19900 19900;
                   Frame 4 26900 26900; Frame 5 34100 34100] (mount 0)) in
  let evs := [Frame 6 50016 50016; Frame 7 53250 53251;
              Frame 8 56500 56502; Frame 9 56518 56519] in
  map (option_map Qred) (timelineTrace evs p)
  = [Some 0; Some (4 # 8525); Some (65 # 682); Some (65 # 341);
     Some (1629 # 8525)]
  /\ StronglySorted timeline_le (timelineTrace evs p).
Proof.
  intros p evs. split; [vm_compute; reflexivity|].
  apply (C6_timeline_monotone p evs).
  - apply start_replay, run_reachable. constructor.
  - reflexivity.
  - simpl. repeat constructor; discriminate.
Defined.

(** ** The five-scene scenario *)

(** C9: the scene table has exactly five scenes, of 6500, 7200, 6200, 7000
    and 7200 ms, 34100 ms in all; fed the elapsed times from 0 to 34100 the
    component shows the scenes 0, 1, 2, 3, 4 in this order, is not complete
    before the last tick, and ends complete with timeline progress exactly
    1.  The same holds when only the scene boundaries are fed. *)
Theorem C9_five_scene_run :
  List.length SCENES = 5%nat
  /\ map duration SCENES = [6500; 7200; 6200; 7000; 7200]%Z
  /\ TOTAL_DURATION = 34100%Z
  /\ last everyTenthOfSecond 0 = inject_Z TOTAL_DURATION
  /\ (let players := feed everyTenthOfSecond (mount 0) in
      visited (map (fun p => sceneIndex (state p)) (mount 0 :: players))
      = [0; 1; 2; 3; 4]%nat
      /\ forallb (fun p => negb (isComplete (state p))) (removelast players)
         = true
      /\ isComplete (state (last players (mount 0))) = true
      /\ timelineProgress (state (last players (mount 0))) = Some 1)
  /\ (let players := feed [0; 6500; 13700; 19900; 26900; 34100] (mount 0) in
      map (fun p => sceneIndex (state p)) (mount 0 :: players)
      = [0; 0; 1; 2; 3; 4; 4]%nat
      /\ map (fun p => isComplete (state p)) players
         = [false; false; false; false; false; true]
      /\ timelineProgress (state (last players (mount 0))) = Some 1).
Proof.
  repeat split; vm_compute; reflexivity.
Qed.

(** * Further properties *)

(** ** The clamp with arbitrary bounds *)

Lemma clamp_fixes_inside (value min max : Q) :
  min <= max -> min <= value <= max -> clamp value min max == value.
Proof.
  intros Hb [Hlo Hhi]. unfold clamp.
  rewrite (Q.max_r min value Hlo). now apply Q.min_r.
Qed.

(** X1: With ordered bounds the result lies between them, and a value that is
    already between them is returned as it is. *)
Theorem clamp_within_bounds (value min max : Q) :
  min <= max ->
  min <= clamp value min max <= max
  /\ (min <= value <= max -> clamp value min max == value).
Proof.
  intros Hb. unfold clamp. split; [split|].
  - apply Q.min_glb; [exact Hb | apply Q.le_max_l].
  - apply Q.le_min_l.
  - now apply clamp_fixes_inside.
Qed.

Lemma clamp_within_bounds_witness :
  20 <= clamp 75 20 80 <= 80 /\ clamp 75 20 80 == 75.
Proof.
  destruct (clamp_within_bounds 75 20 80) as [Hr Hf]; [lra|].
  split; [exact Hr | apply Hf; lra].
Defined.

(** X2: With crossed bounds ([max] below [min]) the outer [Math.min] wins: the
    result is [max], whatever the value. *)
Theorem clamp_crossed_bounds (value min max : Q) :
  max < min -> clamp value min max == max.
Proof.
  intros Hb. unfold clamp. apply Q.min_l.
  apply Qle_trans with min; [lra | apply Q.le_max_l].
Qed.

Lemma clamp_crossed_bounds_witness : clamp 5 10 3 == 3.
Proof. apply clamp_crossed_bounds. lra. Defined.

(** X3: Clamping twice is clamping once, and the clamp preserves the order of
    its arguments, for any bounds. *)
Theorem clamp_idempotent_monotone (min max : Q) :
  (forall value, clamp (clamp value min max) min max == clamp value min max)
  /\ (forall v w, v <= w -> clamp v min max <= clamp w min max).
Proof.
  split.
  - intros value. unfold clamp.
    destruct (Qlt_le_dec max min) as [Hx|Hb].
    + assert (H1 : forall x, Qmin max (Qmax min x) == max).
      { intros x. apply Q.min_l.
        apply Qle_trans with min; [lra | apply Q.le_max_l]. }
      now rewrite !H1.
    + assert (Hlo : min <= Qmin max (Qmax min value))
        by (apply Q.min_glb; [exact Hb | apply Q.le_max_l]).
      rewrite (Q.max_r _ _ Hlo). apply Q.min_r, Q.le_min_l.
  - intros v w Hvw. unfold clamp.
    apply Q.min_le_compat_l, Q.max_le_compat_l, Hvw.
Qed.

(** ** Easing curves *)

Lemma square_nonneg (x : Q) : 0 <= x * x.
Proof. nra. Qed.

Lemma cube_monotone (x y : Q) : x <= y -> x * x * x <= y * y * y.
Proof.
  intros Hxy.
  assert (E : y * y * y - x * x * x
              == (y - x) * ((x + y * (1 # 2)) * (x + y * (1 # 2))
                            + (3 # 4) * (y * y))) by ring.
  pose proof (square_nonneg (x + y * (1 # 2))).
  pose proof (square_nonneg y).
  assert (0 <= (y - x) * ((x + y * (1 # 2)) * (x + y * (1 # 2))
                          + (3 # 4) * (y * y)))
    by (apply Qmult_le_0_compat; lra).
  lra.
Qed.

Lemma fourth_monotone (x y : Q) :
  0 <= x -> x <= y -> (x * x) * (x * x) <= (y * y) * (y * y).
Proof.
  intros Hx Hxy.
  assert (x * x <= y * y) by nra.
  pose proof (square_nonneg x). nra.
Qed.

Lemma Qltb_true (x y : Q) : Qltb x y = true <-> x < y.
Proof.
  unfold Qltb. rewrite negb_true_iff. split.
  - intros Hb. apply Qnot_le_lt. intros Hle.
    apply Qle_bool_iff in Hle. congruence.
  - intros Hlt. destruct (Qle_bool y x) eqn:Hb; [|reflexivity].
    apply Qle_bool_iff in Hb. lra.
Qed.

Lemma Qltb_false (x y : Q) : Qltb x y = false <-> y <= x.
Proof.
  unfold Qltb. rewrite negb_false_iff. apply Qle_bool_iff.
Qed.

Lemma easeOutCubic_cube (t : Q) :
  easeOutCubic t == 1 - (1 - t) * (1 - t) * (1 - t).
Proof. unfold easeOutCubic. ring. Qed.

Lemma easeOutCubic_monotone (t u : Q) :
  t <= u -> easeOutCubic t <= easeOutCubic u.
Proof.
  intros Htu. rewrite !easeOutCubic_cube.
  pose proof (cube_monotone (1 - u) (1 - t) ltac:(lra)). lra.
Qed.

Lemma easeOutCubic_unit (t : Q) : 0 <= t <= 1 -> 0 <= easeOutCubic t <= 1.
Proof.
  intros [H0 H1].
  pose proof (easeOutCubic_monotone 0 t H0) as Hlo.
  pose proof (easeOutCubic_monotone t 1 H1) as Hhi.
  assert (E0 : easeOutCubic 0 == 0) by reflexivity.
  assert (E1 : easeOutCubic 1 == 1) by reflexivity.
  rewrite E0 in Hlo. rewrite E1 in Hhi. lra.
Qed.

(** X4: [easeOutCubic] starts at 0, ends at 1, never decreases (on the whole
    line), and keeps the unit interval inside the unit interval. *)
Theorem easeOutCubic_curve :
  easeOutCubic 0 == 0 /\ easeOutCubic 1 == 1
  /\ (forall t u, t <= u -> easeOutCubic t <= easeOutCubic u)
  /\ (forall t, 0 <= t <= 1 -> 0 <= easeOutCubic t <= 1).
Proof.
  split; [reflexivity | split; [reflexivity | split]].
  - exact easeOutCubic_monotone.
  - exact easeOutCubic_unit.
Qed.

Lemma easeOutQuart_fourth (t : Q) :
  easeOutQuart t == 1 - ((1 - t) * (1 - t)) * ((1 - t) * (1 - t)).
Proof. unfold easeOutQuart. ring. Qed.

Lemma easeOutQuart_monotone (t u : Q) :
  t <= u -> u <= 1 -> easeOutQuart t <= easeOutQuart u.
Proof.
  intros Htu Hu. rewrite !easeOutQuart_fourth.
  pose proof (fourth_monotone (1 - u) (1 - t) ltac:(lra) ltac:(lra)). lra.
Qed.

Lemma easeOutQuart_unit (t : Q) : 0 <= t <= 1 -> 0 <= easeOutQuart t <= 1.
Proof.
  intros [H0 H1].
  pose proof (easeOutQuart_monotone 0 t H0 H1) as Hlo.
  pose proof (easeOutQuart_monotone t 1 H1 ltac:(lra)) as Hhi.
  assert (E0 : easeOutQuart 0 == 0) by reflexivity.
  assert (E1 : easeOutQuart 1 == 1) by reflexivity.
  rewrite E0 in Hlo. rewrite E1 in Hhi. lra.
Qed.

(** X5: [easeOutQuart] starts at 0, ends at 1, never decreases up to 1 and
    keeps the unit interval inside itself; past 1 it turns back (it is 0
    again at 2), so it is an easing only for arguments up to 1. *)
Theorem easeOutQuart_curve :
  easeOutQuart 0 == 0 /\ easeOutQuart 1 == 1
  /\ (forall t u, t <= u -> u <= 1 -> easeOutQuart t <= easeOutQuart u)
  /\ (forall t, 0 <= t <= 1 -> 0 <= easeOutQuart t <= 1)
  /\ easeOutQuart 2 == 0.
Proof.
  split; [reflexivity | split; [reflexivity | split; [|split]]].
  - exact easeOutQuart_monotone.
  - exact easeOutQuart_unit.
  - reflexivity.
Qed.

Lemma easeInOutCubic_low (t : Q) :
  t < 0.5 -> easeInOutCubic t == 4 * (t * t * t).
Proof.
  intros Ht. unfold easeInOutCubic.
  destruct (Qltb t 0.5) eqn:Hb; [ring|].
  apply Qltb_false in Hb. lra.
Qed.

Lemma easeInOutCubic_high (t : Q) :
  0.5 <= t ->
  easeInOutCubic t == 1 - 4 * ((1 - t) * (1 - t) * (1 - t)).
Proof.
  intros Ht. unfold easeInOutCubic.
  destruct (Qltb t 0.5) eqn:Hb.
  - apply Qltb_true in Hb. lra.
  - field.
Qed.

Lemma easeInOutCubic_monotone (t u : Q) :
  t <= u -> easeInOutCubic t <= easeInOutCubic u.
Proof.
  intros Htu.
  destruct (Qlt_le_dec t 0.5) as [Ht|Ht], (Qlt_le_dec u 0.5) as [Hu|Hu].
  - rewrite (easeInOutCubic_low t Ht), (easeInOutCubic_low u Hu).
    pose proof (cube_monotone t u Htu). lra.
  - rewrite (easeInOutCubic_low t Ht), (easeInOutCubic_high u Hu).
    pose proof (cube_monotone t 0.5 ltac:(lra)) as H1.
    pose proof (cube_monotone (1 - u) 0.5 ltac:(lra)) as H2.
    assert (E : 0.5 * 0.5 * 0.5 == 1 # 8) by reflexivity.
    rewrite E in H1, H2. lra.
  - lra.
  - rewrite (easeInOutCubic_high t Ht), (easeInOutCubic_high u Hu).
    pose proof (cube_monotone (1 - u) (1 - t) ltac:(lra)). lra.
Qed.

Lemma easeInOutCubic_unit (t : Q) : 0 <= t <= 1 -> 0 <= easeInOutCubic t <= 1.
Proof.
  intros [H0 H1].
  pose proof (easeInOutCubic_monotone 0 t H0) as Hlo.
  pose proof (easeInOutCubic_monotone t 1 H1) as Hhi.
  assert (E0 : easeInOutCubic 0 == 0) by reflexivity.
  assert (E1 : easeInOutCubic 1 == 1) by reflexivity.
  rewrite E0 in Hlo. rewrite E1 in Hhi. lra.
Qed.

(** X6: [easeInOutCubic]: its two branches meet at the switch point 0.5
    (both formulas give 0.5 there), it never decreases, and it maps the unit
    interval into itself, from 0 at 0 to 1 at 1. *)
Theorem easeInOutCubic_curve :
  (easeInOutCubic 0.5 == 0.5 /\ 4 * 0.5 * 0.5 * 0.5 == 0.5)
  /\ (forall t u, t <= u -> easeInOutCubic t <= easeInOutCubic u)
  /\ easeInOutCubic 0 == 0 /\ easeInOutCubic 1 == 1
  /\ (forall t, 0 <= t <= 1 -> 0 <= easeInOutCubic t <= 1).
Proof.
  split; [split; reflexivity|].
  split; [exact easeInOutCubic_monotone|].
  split; [reflexivity|].
  split; [reflexivity | exact easeInOutCubic_unit].
Qed.

(** ** Saturation of the unit clamp *)

Lemma clamp_unit_low (value : Q) : value <= 0 -> clamp value 0 1 == 0.
Proof.
  intros Hv. unfold clamp. rewrite (Q.max_l 0 value Hv). apply Q.min_r. lra.
Qed.

Lemma clamp_unit_high (value : Q) : 1 <= value -> clamp value 0 1 == 1.
Proof.
  intros Hv. unfold clamp. apply Q.min_l.
  apply Qle_trans with value; [exact Hv | apply Q.le_max_r].
Qed.

Lemma clamp_unit_inside (value : Q) :
  0 <= value <= 1 -> clamp value 0 1 == value.
Proof.
  intros Hv. apply clamp_fixes_inside; [lra | exact Hv].
Qed.

(** ** WakeUpScene *)

(** X7: For every progress value, also outside [0,1]: the eyelid bars stay
    between 2 % and 50 % (upper) or 48 % (lower) of the height, so together
    they never cover more than 98 % of it; brightness filters stay within
    [0.75, 1.25] and [0.8, 1.3]; the two opacities are valid; the curtain
    shift stays within [-6, 12] and the glow within its scale [1, 1.4]. *)
Theorem WakeUpScene_style_ranges (progress : Q) :
  let s := WakeUpScene.render progress in
  2 <= WakeUpScene.upperLidHeight s <= 50
  /\ 2 <= WakeUpScene.lowerLidHeight s <= 48
  /\ WakeUpScene.upperLidHeight s + WakeUpScene.lowerLidHeight s <= 98
  /\ 0.75 <= WakeUpScene.roomBrightness s <= 1.25
  /\ 0.8 <= WakeUpScene.canopyBrightness s <= 1.3
  /\ 0 <= WakeUpScene.sunOpacity s <= 1
  /\ 0 <= WakeUpScene.highlightOpacity s <= 1
  /\ -6 <= WakeUpScene.curtainTranslateX s <= 12
  /\ 1 <= WakeUpScene.glowScale s <= 1.4
  /\ -10 <= WakeUpScene.glowTranslateY s <= 0.
Proof.
  cbv zeta. unfold WakeUpScene.render.
  cbn [WakeUpScene.upperLidHeight WakeUpScene.lowerLidHeight
       WakeUpScene.roomBrightness WakeUpScene.canopyBrightness
       WakeUpScene.sunOpacity WakeUpScene.highlightOpacity
       WakeUpScene.curtainTranslateX WakeUpScene.glowScale
       WakeUpScene.glowTranslateY].
  assert (He : 0 <= WakeUpScene.eyelidCover progress <= 1)
    by apply clamp_unit_range.
  pose proof (clamp_unit_range ((progress - 0.1) * 1.2)) as Hs.
  fold (WakeUpScene.sunlight progress) in Hs.
  pose proof (clamp_unit_range (1 - progress * 1.35)) as Hc.
  fold (WakeUpScene.curtainShadow progress) in Hc.
  pose proof (easeOutCubic_unit _ (clamp_unit_range (progress * 1.5))) as Ho.
  fold (WakeUpScene.openness progress) in Ho.
  repeat split; lra.
Qed.

(** X8: The eyes are shut until the scene starts to run (progress at most 0
    gives full cover) and fully open from two thirds of the scene on (no
    cover, full highlight): the last third plays with open eyes. *)
Theorem WakeUpScene_eyes :
  (forall progress, progress <= 0 -> WakeUpScene.eyelidCover progress == 1)
  /\ (forall progress, 2 # 3 <= progress ->
        WakeUpScene.eyelidCover progress == 0
        /\ WakeUpScene.openness progress == 1).
Proof.
  split.
  - intros progress Hp. unfold WakeUpScene.eyelidCover.
    assert (Ho : WakeUpScene.openness progress == 0).
    { unfold WakeUpScene.openness.
      rewrite easeOutCubic_cube, (clamp_unit_low (progress * 1.5)) by lra.
      ring. }
    assert (Hb : WakeUpScene.blink progress = 0).
    { unfold WakeUpScene.blink.
      replace (Qltb 0.58 progress) with false; [reflexivity|].
      symmetry. apply Qltb_false. lra. }
    rewrite Hb. apply clamp_unit_high. lra.
  - intros progress Hp.
    assert (Ho : WakeUpScene.openness progress == 1).
    { unfold WakeUpScene.openness.
      rewrite easeOutCubic_cube, (clamp_unit_high (progress * 1.5)) by lra.
      ring. }
    split; [|exact Ho].
    unfold WakeUpScene.eyelidCover.
    assert (Hb : WakeUpScene.blink progress = 0).
    { unfold WakeUpScene.blink.
      replace (Qltb progress 0.66) with false;
        [now rewrite andb_false_r|].
      symmetry. apply Qltb_false. lra. }
    rewrite Hb. apply clamp_unit_low. lra.
Qed.

(** X9: The blink is a value in [0,1]; it is 0 outside the open window
    0.58 < progress < 0.66, and inside the window it only decreases as the
    scene goes on (the lid drops at once and then lifts). *)
Theorem WakeUpScene_blink :
  (forall progress, 0 <= WakeUpScene.blink progress <= 1)
  /\ (forall progress, progress <= 0.58 \/ 0.66 <= progress ->
        WakeUpScene.blink progress = 0)
  /\ (forall p q, 0.58 < p -> p <= q -> q < 0.66 ->
        WakeUpScene.blink q <= WakeUpScene.blink p).
Proof.
  split; [|split].
  - intros progress. unfold WakeUpScene.blink.
    destruct (Qltb 0.58 progress && Qltb progress 0.66); [|lra].
    pose proof (easeOutQuart_unit _
                  (clamp_unit_range ((progress - 0.58) / 0.08))). lra.
  - intros progress Hout. unfold WakeUpScene.blink.
    destruct Hout as [Hlo|Hhi].
    + replace (Qltb 0.58 progress) with false; [reflexivity|].
      symmetry. apply Qltb_false. exact Hlo.
    + replace (Qltb progress 0.66) with false; [now rewrite andb_false_r|].
      symmetry. apply Qltb_false. exact Hhi.
  - intros p q Hp Hpq Hq. unfold WakeUpScene.blink.
    replace (Qltb 0.58 p) with true by (symmetry; apply Qltb_true; lra).
    replace (Qltb p 0.66) with true by (symmetry; apply Qltb_true; lra).
    replace (Qltb 0.58 q) with true by (symmetry; apply Qltb_true; lra).
    replace (Qltb q 0.66) with true by (symmetry; apply Qltb_true; lra).
    cbn [andb].
    assert (Hm : clamp ((p - 0.58) / 0.08) 0 1 <= clamp ((q - 0.58) / 0.08) 0 1).
    { apply clamp_monotone, Qdiv_le_compat; lra. }
    pose proof (easeOutQuart_monotone _ _ Hm
                  (proj2 (clamp_unit_range ((q - 0.58) / 0.08)))).
    lra.
Qed.

(** ** PenthouseScene *)

(** X10: For every progress value: all opacities written are valid (the veil
    keeps an opacity of 0.0799 at least: its lowest value is 1 - 0.92, which
    in doubles is 0.07999999999999996, just under 0.08; a tower stays
    within [0.35, 0.9]); there is one
    tower per entry of [BUILDINGS], each between its base and base + 18 and
    therefore between 38 % and 84 % of the frame: no tower reaches the top;
    the hue rotation stays within 45 degrees. *)
Theorem PenthouseScene_style_ranges (progress : Q) :
  let s := PenthouseScene.render progress in
  0.0799 <= PenthouseScene.veilOpacity s <= 1
  /\ 0 <= PenthouseScene.seaOpacity s <= 1
  /\ 0.3 <= PenthouseScene.sculptureOpacity s <= 0.9
  /\ 0 <= PenthouseScene.sculptureCoreOpacity s <= 1
  /\ 0 <= PenthouseScene.sculptureHue s <= 45
  /\ List.length (PenthouseScene.towers s) = List.length BUILDINGS
  /\ Forall (fun tower =>
               38 <= PenthouseScene.towerHeight tower <= 84
               /\ 0.35 <= PenthouseScene.towerOpacity tower <= 0.9
               /\ 0.2 <= PenthouseScene.antennaOpacity tower <= 0.7
               /\ 0 <= PenthouseScene.towerTranslateY tower <= 8)
            (PenthouseScene.towers s).
Proof.
  cbv zeta. unfold PenthouseScene.render.
  cbn [PenthouseScene.veilOpacity PenthouseScene.seaOpacity
       PenthouseScene.sculptureOpacity PenthouseScene.sculptureCoreOpacity
       PenthouseScene.sculptureHue PenthouseScene.towers].
  pose proof (easeOutCubic_unit _ (clamp_unit_range (progress * 1.4))) as Hc.
  fold (PenthouseScene.curtainOpen progress) in Hc.
  pose proof (clamp_unit_range ((progress - 0.12) * 1.4)) as Hs.
  fold (PenthouseScene.skylineGlow progress) in Hs.
  pose proof (clamp_unit_range ((progress - 0.35) * 1.6)) as Hk.
  fold (PenthouseScene.kineticGlow progress) in Hk.
  repeat (split; [lra|]).
  split; [apply length_map|].
  apply Forall_map.
  unfold BUILDINGS.
  repeat (constructor;
          [cbn [PenthouseScene.towerHeight PenthouseScene.towerOpacity
                PenthouseScene.antennaOpacity PenthouseScene.towerTranslateY
                base];
           repeat split; unfold inject_Z; lra|]).
  constructor.
Qed.

(** ** BalconyScene *)

(** X11: For a progress in [0,1]: the deck and the pool only move up towards
    their rest position (shifts within [0, 28] and [0, 40]), the deck scale
    stays within [0.95, 1.1], the blur radius is never negative (within
    [2, 4]) and all opacities are valid. *)
Theorem BalconyScene_style_ranges (progress : Q) :
  0 <= progress <= 1 ->
  let s := BalconyScene.render progress in
  0 <= BalconyScene.deckTranslateY s <= 28
  /\ 0.95 <= BalconyScene.deckScale s <= 1.1
  /\ 0 <= BalconyScene.poolTranslateY s <= 40
  /\ 0.35 <= BalconyScene.skyOpacity s <= 0.95
  /\ 0.4 <= BalconyScene.horizonOpacity s <= 1
  /\ 2 <= BalconyScene.horizonBlur s <= 4
  /\ 0 <= BalconyScene.yachtOpacity s <= 1
  /\ 0 <= BalconyScene.yachtTranslateY s <= 30.
Proof.
  intros Hp. cbv zeta. unfold BalconyScene.render.
  cbn [BalconyScene.deckTranslateY BalconyScene.deckScale
       BalconyScene.poolTranslateY BalconyScene.skyOpacity
       BalconyScene.horizonOpacity BalconyScene.horizonBlur
       BalconyScene.yachtOpacity BalconyScene.yachtTranslateY].
  pose proof (easeInOutCubic_unit progress Hp) as Hs.
  fold (BalconyScene.stride progress) in Hs.
  pose proof (clamp_unit_range ((progress - 0.12) * 1.4)) as Hh.
  fold (BalconyScene.horizonGlow progress) in Hh.
  pose proof (clamp_unit_range ((progress - 0.4) * 1.8)) as Hy.
  fold (BalconyScene.yachtReveal progress) in Hy.
  repeat split; lra.
Qed.

Lemma BalconyScene_style_ranges_witness :
  0.95 <= BalconyScene.deckScale (BalconyScene.render 0.25) <= 1.1.
Proof.
  apply (BalconyScene_style_ranges 0.25). lra.
Defined.

(** X12: The stride is not clamped: a progress well outside [0,1] takes
    the deck far out of the ranges above.  From progress 2 on the deck is
    scaled beyond 1.5 and shifted more than 100 % above its rest position;
    from progress -1 down the scale is under 0.5 and the shift beyond
    100 %.  The bounds do depend on the caller passing a unit progress. *)
Theorem BalconyScene_stride_unclamped :
  (forall progress, 2 <= progress ->
     1.5 < BalconyScene.deckScale (BalconyScene.render progress)
     /\ BalconyScene.deckTranslateY (BalconyScene.render progress) < -100)
  /\ (forall progress, progress <= -1 ->
        BalconyScene.deckScale (BalconyScene.render progress) < 0.5
        /\ 100 < BalconyScene.deckTranslateY (BalconyScene.render progress)).
Proof.
  assert (E2 : easeInOutCubic 2 == 5) by reflexivity.
  assert (E1 : easeInOutCubic (-1) == -4) by reflexivity.
  split; intros progress Hp; unfold BalconyScene.render;
    cbn [BalconyScene.deckScale BalconyScene.deckTranslateY];
    unfold BalconyScene.stride.
  - pose proof (easeInOutCubic_monotone 2 progress Hp) as Hm.
    rewrite E2 in Hm. split; lra.
  - pose proof (easeInOutCubic_monotone progress (-1) Hp) as Hm.
    rewrite E1 in Hm. split; lra.
Qed.

(** ** HelipadScene *)

(** X13: For every progress value: the rotor periods are positive, at most
    1.1 and 1.2 seconds and at least 0.3, the second one strictly above it
    (its lowest value is 1.2 - 0.8, in doubles 0.3999999999999999), and the
    floor [Math.max(0.3, ...)] never takes effect (each period equals its
    formula); the rotors only get faster as the scene goes on; all
    opacities are valid. *)
Theorem HelipadScene_rotors :
  (forall progress,
     let s := HelipadScene.render progress in
     0.3 <= HelipadScene.rotorDuration s <= 1.1
     /\ 0.3 < HelipadScene.counterRotorDuration s <= 1.2
     /\ HelipadScene.rotorDuration s
        == 1.1 - HelipadScene.rotorPower progress * 0.8
     /\ HelipadScene.counterRotorDuration s
        == 1.2 - HelipadScene.rotorPower progress * 0.8
     /\ 0.3 <= HelipadScene.rotorOpacity s <= 1
     /\ 0.15 <= HelipadScene.counterRotorOpacity s <= 0.65
     /\ 0.2 <= HelipadScene.panelOpacity s <= 1
     /\ 0.2 <= HelipadScene.skidOpacity s <= 0.8)
  /\ (forall p q, p <= q ->
        HelipadScene.rotorDuration (HelipadScene.render q)
        <= HelipadScene.rotorDuration (HelipadScene.render p)
        /\ HelipadScene.counterRotorDuration (HelipadScene.render q)
           <= HelipadScene.counterRotorDuration (HelipadScene.render p)).
Proof.
  assert (Hfloor : forall progress,
             Qmax 0.3 (1.1 - HelipadScene.rotorPower progress * 0.8)
             == 1.1 - HelipadScene.rotorPower progress * 0.8
             /\ Qmax 0.3 (1.2 - HelipadScene.rotorPower progress * 0.8)
                == 1.2 - HelipadScene.rotorPower progress * 0.8
             /\ 0 <= HelipadScene.rotorPower progress <= 1).
  { intros progress.
    pose proof (clamp_unit_range ((progress - 0.12) * 1.4)) as Hr.
    fold (HelipadScene.rotorPower progress) in Hr.
    split; [|split; [|exact Hr]]; apply Q.max_r; lra. }
  split.
  - intros progress. cbv zeta. unfold HelipadScene.render.
    cbn [HelipadScene.rotorDuration HelipadScene.counterRotorDuration
         HelipadScene.rotorOpacity HelipadScene.counterRotorOpacity
         HelipadScene.panelOpacity HelipadScene.skidOpacity].
    destruct (Hfloor progress) as (E1 & E2 & Hr).
    pose proof (clamp_unit_range ((progress - 0.4) * 1.4)) as Hl.
    fold (HelipadScene.lightSweep progress) in Hl.
    pose proof (clamp_unit_range ((progress - 0.65) * 2)) as Hd.
    fold (HelipadScene.departure progress) in Hd.
    rewrite E1, E2. repeat split; lra.
  - intros p q Hpq. unfold HelipadScene.render.
    cbn [HelipadScene.rotorDuration HelipadScene.counterRotorDuration].
    destruct (Hfloor p) as (P1 & P2 & _). destruct (Hfloor q) as (Q1 & Q2 & _).
    rewrite P1, P2, Q1, Q2.
    assert (Hm : HelipadScene.rotorPower p <= HelipadScene.rotorPower q).
    { unfold HelipadScene.rotorPower. apply clamp_monotone. lra. }
    split; lra.
Qed.

(** X14: Within a scene (progress at most 1) the departure and the light sweep
    never reach their full value: the departure stops at 0.7 and the sweep
    at 0.84, so the hub is scaled by at most 1.056, the skid is lifted by at
    most 7 % and its opacity stays below 0.62. *)
Theorem HelipadScene_unsaturated (progress : Q) :
  progress <= 1 ->
  HelipadScene.departure progress <= 0.7
  /\ HelipadScene.lightSweep progress <= 0.84
  /\ HelipadScene.hubScale (HelipadScene.render progress) <= 1.056
  /\ -7 <= HelipadScene.skidTranslateY (HelipadScene.render progress)
  /\ HelipadScene.skidOpacity (HelipadScene.render progress) <= 0.62.
Proof.
  intros Hp.
  assert (Hd : HelipadScene.departure progress <= 0.7).
  { unfold HelipadScene.departure.
    apply Qle_trans with (clamp ((1 - 0.65) * 2) 0 1).
    - apply clamp_monotone. lra.
    - rewrite clamp_unit_inside; lra. }
  assert (Hl : HelipadScene.lightSweep progress <= 0.84).
  { unfold HelipadScene.lightSweep.
    apply Qle_trans with (clamp ((1 - 0.4) * 1.4) 0 1).
    - apply clamp_monotone. lra.
    - rewrite clamp_unit_inside; lra. }
  unfold HelipadScene.render.
  cbn [HelipadScene.hubScale HelipadScene.skidTranslateY
       HelipadScene.skidOpacity].
  repeat split; lra.
Qed.

Lemma HelipadScene_unsaturated_witness :
  HelipadScene.departure 1 <= 0.7 /\ HelipadScene.departure 1 == 0.7.
Proof.
  split; [|reflexivity].
  apply (HelipadScene_unsaturated 1). lra.
Defined.

(** ** All scenes move forward only *)

(** X15: Every parameter a scene derives from its progress follows the progress
    in one direction: as progress grows, each glow, reveal, opening and
    stride only grows, and the curtain shadow of the first scene only
    shrinks.  No element moves back while its scene plays. *)
Theorem scene_parameters_monotone (p q : Q) :
  p <= q ->
  WakeUpScene.openness p <= WakeUpScene.openness q
  /\ WakeUpScene.sunlight p <= WakeUpScene.sunlight q
  /\ WakeUpScene.curtainShadow q <= WakeUpScene.curtainShadow p
  /\ PenthouseScene.curtainOpen p <= PenthouseScene.curtainOpen q
  /\ PenthouseScene.skylineGlow p <= PenthouseScene.skylineGlow q
  /\ PenthouseScene.kineticGlow p <= PenthouseScene.kineticGlow q
  /\ BalconyScene.stride p <= BalconyScene.stride q
  /\ BalconyScene.horizonGlow p <= BalconyScene.horizonGlow q
  /\ BalconyScene.yachtReveal p <= BalconyScene.yachtReveal q
  /\ HelipadScene.rotorPower p <= HelipadScene.rotorPower q
  /\ HelipadScene.lightSweep p <= HelipadScene.lightSweep q
  /\ HelipadScene.departure p <= HelipadScene.departure q.
Proof.
  intros Hpq.
  unfold WakeUpScene.openness, WakeUpScene.sunlight, WakeUpScene.curtainShadow,
    PenthouseScene.curtainOpen, PenthouseScene.skylineGlow,
    PenthouseScene.kineticGlow, BalconyScene.stride, BalconyScene.horizonGlow,
    BalconyScene.yachtReveal, HelipadScene.rotorPower, HelipadScene.lightSweep,
    HelipadScene.departure.
  repeat split;
    try (apply clamp_monotone; lra);
    try (apply easeOutCubic_monotone, clamp_monotone; lra).
  now apply easeInOutCubic_monotone.
Qed.

Lemma scene_parameters_monotone_witness :
  WakeUpScene.openness 0.2 <= WakeUpScene.openness 0.4.
Proof.
  apply (scene_parameters_monotone 0.2 0.4). lra.
Defined.

(** ** PortfolioScene *)

Lemma Math_round_monotone (x y : Q) :
  x <= y -> (Math_round x <= Math_round y)%Z.
Proof.
  intros Hxy. unfold Math_round. apply Qfloor_resp_le. lra.
Qed.

Lemma Math_round_integer (z : Z) : Math_round (inject_Z z) = z.
Proof.
  unfold Math_round.
  pose proof (Qfloor_le (inject_Z z + 0.5)) as Hle.
  pose proof (Qlt_floor (inject_Z z + 0.5)) as Hlt.
  assert (H1 : inject_Z (Qfloor (inject_Z z + 0.5)) < inject_Z (z + 1)).
  { rewrite inject_Z_plus. change (inject_Z 1) with 1. lra. }
  assert (H2 : inject_Z z < inject_Z (Qfloor (inject_Z z + 0.5) + 1)) by lra.
  rewrite <- Zlt_Qlt in H1, H2. lia.
Qed.

(** The amount [base + Math.round(progress * span)] of a whole [span]. *)
Lemma amount_range (span : Z) (progress : Q) :
  (0 <= span)%Z -> 0 <= progress <= 1 ->
  (0 <= Math_round (progress * inject_Z span) <= span)%Z.
Proof.
  intros Hs [H0 H1].
  assert (Hq : 0 <= inject_Z span)
    by (change 0 with (inject_Z 0); now rewrite <- Zle_Qle).
  split.
  - change 0%Z with (Math_round (inject_Z 0)).
    + apply Math_round_monotone. change (inject_Z 0) with 0. nra.
  - rewrite <- (Math_round_integer span) at 2.
    apply Math_round_monotone. nra.
Qed.

(** X16: Every amount the portfolio shows only grows with the progress. *)
Theorem PortfolioScene_amounts_monotone (p q : Q) :
  p <= q ->
  (PortfolioScene.balance (PortfolioScene.render p)
   <= PortfolioScene.balance (PortfolioScene.render q)
   /\ PortfolioScene.delta (PortfolioScene.render p)
      <= PortfolioScene.delta (PortfolioScene.render q)
   /\ PortfolioScene.crypto (PortfolioScene.render p)
      <= PortfolioScene.crypto (PortfolioScene.render q)
   /\ PortfolioScene.art (PortfolioScene.render p)
      <= PortfolioScene.art (PortfolioScene.render q)
   /\ PortfolioScene.yacht (PortfolioScene.render p)
      <= PortfolioScene.yacht (PortfolioScene.render q))%Z.
Proof.
  intros Hpq. unfold PortfolioScene.render.
  cbn [PortfolioScene.balance PortfolioScene.delta PortfolioScene.crypto
       PortfolioScene.art PortfolioScene.yacht].
  repeat split; apply Z.add_le_mono_l, Math_round_monotone; lra.
Qed.

Lemma PortfolioScene_amounts_monotone_witness :
  (PortfolioScene.balance (PortfolioScene.render 0.25)
   <= PortfolioScene.balance (PortfolioScene.render 0.5))%Z.
Proof.
  apply (PortfolioScene_amounts_monotone 0.25 0.5). lra.
Defined.

(** X17: For a progress in [0,1] every amount is a whole number of dollars
    between its opening figure and that figure plus the scene's gain (the
    balance between 184,650,000 and 188,850,000), and every chart bar is
    between 49.6 and 125.6 px high with a valid opacity. *)
Theorem PortfolioScene_amounts_range (progress : Q) :
  0 <= progress <= 1 ->
  let s := PortfolioScene.render progress in
  (184650000 <= PortfolioScene.balance s <= 188850000
   /\ 128000 <= PortfolioScene.delta s <= 338000
   /\ 32400000 <= PortfolioScene.crypto s <= 34000000
   /\ 18200000 <= PortfolioScene.art s <= 18820000
   /\ 72000000 <= PortfolioScene.yacht s <= 74500000)%Z
  /\ Forall (fun bar => 49.6 <= PortfolioScene.barHeight bar <= 125.6
                        /\ 0 <= PortfolioScene.barOpacity bar <= 1)
            (PortfolioScene.bars s).
Proof.
  intros Hp. cbv zeta. unfold PortfolioScene.render.
  cbn [PortfolioScene.balance PortfolioScene.delta PortfolioScene.crypto
       PortfolioScene.art PortfolioScene.yacht PortfolioScene.bars].
  pose proof (amount_range 4200000 progress ltac:(lia) Hp) as H1.
  pose proof (amount_range 210000 progress ltac:(lia) Hp) as H2.
  pose proof (amount_range 1600000 progress ltac:(lia) Hp) as H3.
  pose proof (amount_range 620000 progress ltac:(lia) Hp) as H4.
  pose proof (amount_range 2500000 progress ltac:(lia) Hp) as H5.
  change (inject_Z 4200000) with 4200000 in H1.
  change (inject_Z 210000) with 210000 in H2.
  change (inject_Z 1600000) with 1600000 in H3.
  change (inject_Z 620000) with 620000 in H4.
  change (inject_Z 2500000) with 2500000 in H5.
  split; [lia|].
  apply Forall_map. unfold CHART_POINTS.
  repeat (constructor;
          [cbn [PortfolioScene.barHeight PortfolioScene.barOpacity]; lra|]).
  constructor.
Qed.

Lemma PortfolioScene_amounts_range_witness :
  PortfolioScene.balance (PortfolioScene.render 1) = 188850000%Z
  /\ (184650000 <= PortfolioScene.balance (PortfolioScene.render 0.5)
      <= 188850000)%Z.
Proof.
  split; [reflexivity|].
  apply (PortfolioScene_amounts_range 0.5). lra.
Defined.

(** ** The ambient particles *)

(** X18: The generator keeps every particle, at whatever index, within 2..101 %
    from the left and 4..103 % from the top, with a size of 2 to 5 px and a
    delay of 0 to 1.3 s; over the first hundred indices no two particles
    share a column.  The 22 particles of [PARTICLES] all lie inside the
    frame (at most 98 % and 99 %) at pairwise different positions. *)
Theorem particles_layout :
  (forall index,
     (2 <= particle_left (particle index) <= 101
      /\ 4 <= particle_top (particle index) <= 103
      /\ 2 <= size (particle index) <= 5)%nat
     /\ 0 <= delay (particle index) <= 1.3)
  /\ (forall i j, (i < 100)%nat -> (j < 100)%nat ->
        particle_left (particle i) = particle_left (particle j) -> i = j)
  /\ List.length PARTICLES = 22%nat
  /\ Forall (fun p => (particle_left p <= 98 /\ particle_top p <= 99)%nat)
            PARTICLES
  /\ NoDup (map (fun p => (particle_left p, particle_top p)) PARTICLES).
Proof.
  split; [|split; [|split; [|split]]].
  - intros index. unfold particle.
    cbn [particle_left particle_top size delay].
    pose proof (Nat.mod_upper_bound (index * 37) 100 ltac:(lia)).
    pose proof (Nat.mod_upper_bound (index * 53) 100 ltac:(lia)).
    pose proof (Nat.mod_upper_bound (index * 13) 4 ltac:(lia)).
    pose proof (Nat.mod_upper_bound (index * 97) 14 ltac:(lia)) as Hd.
    split; [lia|].
    assert (Hq : 0 <= inject_Z (Z.of_nat ((index * 97) mod 14)) <= 13).
    { split.
      - change 0 with (inject_Z 0). rewrite <- Zle_Qle. lia.
      - change 13 with (inject_Z 13). rewrite <- Zle_Qle. lia. }
    split; [apply Qle_shift_div_l | apply Qle_shift_div_r]; lra.
  - intros i j Hi Hj. unfold particle. cbn [particle_left]. intros Heq.
    assert (Hinv : forall k, (k < 100)%nat ->
                     ((((k * 37) mod 100) * 73) mod 100 = k)%nat).
    { intros k Hk. rewrite Nat.Div0.mul_mod_idemp_l.
      replace (k * 37 * 73)%nat with (k + (27 * k) * 100)%nat by lia.
      rewrite Nat.Div0.mod_add. now apply Nat.mod_small. }
    rewrite <- (Hinv i Hi), <- (Hinv j Hj).
    f_equal. f_equal. lia.
  - reflexivity.
  - unfold PARTICLES. simpl. repeat constructor.
  - unfold PARTICLES. simpl.
    repeat (constructor;
            [simpl; intros Hin;
             repeat (destruct Hin as [Hin|Hin]; [discriminate Hin|]);
             exact Hin|]).
    constructor.
Qed.

(** ** The layers of the player *)

(** X19: With the scene index inside the table, exactly one layer is opaque
    and takes pointer events, the one of the active scene; with an index
    outside the table no layer would. *)
Theorem layers_one_visible (st : PlayerState) :
  (forall index,
     (opacity (layer st index) = 1 <-> index = sceneIndex st)
     /\ (opacity (layer st index) = 0 <-> index <> sceneIndex st)
     /\ (pointerEvents (layer st index) = true <-> index = sceneIndex st))
  /\ List.length (layers st) = List.length SCENES
  /\ List.length (filter pointerEvents (layers st))
     = (if (sceneIndex st <? List.length SCENES)%nat then 1 else 0)%nat.
Proof.
  split; [|split].
  - intros index. unfold layer. cbn [opacity pointerEvents].
    destruct (Nat.eqb_spec index (sceneIndex st)) as [He|Hne].
    + repeat split; auto; try discriminate; congruence.
    + destruct (index <? sceneIndex st)%nat;
        repeat split; auto; try discriminate; congruence.
  - unfold layers. now rewrite length_map, length_seq.
  - unfold layers, layer. rewrite SCENES_length. simpl.
    destruct (sceneIndex st) as [|[|[|[|[|n]]]]]; reflexivity.
Qed.

(** X20: In every reachable state the progress handed to each scene is in
    [0,1]: 1 for the scenes already played, the published progress for the
    active one and 0 for those to come, so it never increases from one
    layer to the next; and every layer has a renderer. *)
Theorem layers_visible_progress (p : Player) :
  reachable p ->
  Forall (fun l => 0 <= visibleProgress l <= 1) (layers (state p))
  /\ StronglySorted (fun a b => visibleProgress b <= visibleProgress a)
       (layers (state p))
  /\ (forall index, (index < sceneIndex (state p))%nat ->
        visibleProgress (layer (state p) index) = 1)
  /\ (forall index, (sceneIndex (state p) < index)%nat ->
        visibleProgress (layer (state p) index) = 0)
  /\ (forall index, (index < List.length SCENES)%nat ->
        renderScene index (visibleProgress (layer (state p) index)) <> None).
Proof.
  intros Hr. pose proof (reachable_invariant _ Hr) as Hinv.
  pose proof (inv_index _ Hinv) as Hi. pose proof (inv_progress _ Hinv) as Hp.
  assert (Hu : 0 <= sceneProgress (state p) <= 1).
  { destruct (isComplete (state p)); [destruct Hp as [-> _]|]; lra. }
  rewrite SCENES_length in Hi.
  split; [|split; [|split; [|split]]].
  - unfold layers, layer. rewrite SCENES_length. simpl.
    destruct (sceneIndex (state p)) as [|[|[|[|[|n]]]]]; try lia;
      repeat constructor; simpl; lra.
  - unfold layers, layer. rewrite SCENES_length. simpl.
    destruct (sceneIndex (state p)) as [|[|[|[|[|n]]]]]; try lia;
      repeat constructor; simpl; lra.
  - intros index Hlt. unfold layer. cbn [visibleProgress].
    now replace (index <? sceneIndex (state p))%nat with true
      by (symmetry; apply Nat.ltb_lt; exact Hlt).
  - intros index Hlt. unfold layer. cbn [visibleProgress].
    replace (index <? sceneIndex (state p))%nat with false
      by (symmetry; apply Nat.ltb_ge; lia).
    now replace (index =? sceneIndex (state p))%nat with false
      by (symmetry; apply Nat.eqb_neq; lia).
  - intros index Hlt. rewrite SCENES_length in Hlt.
    do 5 (destruct index as [|index]; [discriminate|]). lia.
Qed.

Lemma layers_visible_progress_witness :
  let p := deliver (Frame 2 10100 10100) (deliver (Frame 1 6500 6500) (mount 0)) in
  map (fun l => Qred (visibleProgress l)) (layers (state p))
  = [1; 1 # 2; 0; 0; 0]
  /\ Forall (fun l => 0 <= visibleProgress l <= 1) (layers (state p)).
Proof.
  intros p. split; [vm_compute; reflexivity|].
  apply (layers_visible_progress p). repeat constructor.
Defined.

(** ** The overlay *)

Lemma timeline_unit (p : Player) :
  invariant p ->
  exists v, timelineProgress (state p) = Some v
            /\ 0 <= v <= 1
            /\ (isComplete (state p) = true -> v = 1).
Proof.
  intros Hinv. pose proof (inv_progress _ Hinv) as Hp.
  destruct (isComplete (state p)) eqn:Hc.
  - exists 1. unfold timelineProgress. rewrite Hc.
    split; [reflexivity | split; [lra | reflexivity]].
  - destruct (scene_lookup_Q _ (inv_index _ Hinv))
      as (sc & Hsc & Hd & He & Hsum & Ht).
    rewrite (timelineProgress_running _ _ Hc Hsc).
    eexists. split; [reflexivity|]. split; [|discriminate].
    apply fraction_range; lra.
Qed.

(** X21: In every reachable state the scene lookups of the component succeed:
    the pending [step] does not throw at any timestamp, the timeline
    progress and the net worth are defined, and the heading shows the scene
    number, from 1 to 5, with the title of the active scene. *)
Theorem render_never_throws (p : Player) :
  reachable p ->
  (forall timestamp, step (effect p) timestamp <> None)
  /\ timelineProgress (state p) <> None
  /\ netWorth (state p) <> None
  /\ exists activeScene,
       nth_error SCENES (sceneIndex (state p)) = Some activeScene
       /\ heading (state p)
          = Some ((sceneIndex (state p) + 1)%nat, title activeScene)
       /\ (1 <= sceneIndex (state p) + 1 <= List.length SCENES)%nat.
Proof.
  intros Hr. pose proof (reachable_invariant _ Hr) as Hinv.
  destruct (scene_lookup _ (inv_index _ Hinv)) as (sc & Hsc & _).
  destruct (timeline_unit p Hinv) as (v & Hv & _).
  split; [|split; [|split]].
  - intros timestamp. unfold step. rewrite (inv_eff_scene _ Hinv), Hsc.
    destruct (Qle_bool 1 _); [destruct (_ <=? _)%nat|]; discriminate.
  - rewrite Hv. discriminate.
  - unfold netWorth. rewrite Hv. discriminate.
  - exists sc. split; [exact Hsc|]. unfold heading. rewrite Hsc.
    split; [reflexivity|]. pose proof (inv_index _ Hinv). lia.
Qed.

Lemma render_never_throws_witness :
  heading (state (deliver (Frame 1 6500 6500) (mount 0)))
  = Some (2%nat, "Penthouse Panorama"%string)
  /\ netWorth (state (deliver (Frame 1 6500 6500) (mount 0))) <> None.
Proof.
  split; [reflexivity|].
  apply (render_never_throws (deliver (Frame 1 6500 6500) (mount 0))).
  repeat constructor.
Defined.

(** X22: In every reachable state the net worth shown is a whole amount
    between 186,000,000 and 194,000,000; it is 194,000,000 once the run is
    complete and 186,000,000 when a run starts. *)
Theorem netWorth_range (p : Player) :
  reachable p ->
  exists n,
    netWorth (state p) = Some n
    /\ (186000000 <= n <= 194000000)%Z
    /\ (isComplete (state p) = true -> n = 194000000%Z)
    /\ (run_start p -> n = 186000000%Z).
Proof.
  intros Hr. pose proof (reachable_invariant _ Hr) as Hinv.
  destruct (timeline_unit p Hinv) as (v & Hv & Hu & Hc).
  unfold netWorth. rewrite Hv. cbn [option_map].
  eexists. split; [reflexivity|].
  pose proof (amount_range 8000000 v ltac:(lia) Hu) as Ha.
  change (inject_Z 8000000) with 8000000 in Ha.
  split; [lia|]. split.
  - intros Hcomplete. rewrite (Hc Hcomplete). reflexivity.
  - intros Hstart.
    destruct (run_start_fresh _ Hstart) as (_ & Hi & Hp & Hrun).
    unfold timelineProgress, elapsedBeforeScene in Hv.
    rewrite Hrun, Hi, Hp in Hv. simpl in Hv. injection Hv as <-.
    reflexivity.
Qed.

Lemma netWorth_range_witness :
  netWorth (state (deliver (Frame 1 3250 3250) (mount 0)))
  = Some 186762463%Z.
Proof.
  destruct (netWorth_range (deliver (Frame 1 3250 3250) (mount 0)))
    as (n & Hn & _); [repeat constructor|].
  rewrite Hn. vm_compute in Hn. symmetry. exact Hn.
Defined.

Lemma timelineTrace_stateTrace (evs : list Event) (p : Player) :
  timelineTrace evs p = map timelineProgress (stateTrace evs p).
Proof.
  revert p. induction evs as [|ev evs IH]; intros p; simpl.
  - reflexivity.
  - now rewrite IH.
Qed.

Lemma run_timeline_sorted (p : Player) (evs : list Event) :
  run_start p -> forallb isFrame evs = true -> Sorted Qle (timestamps evs) ->
  Sorted timeline_le (timelineTrace evs p).
Proof.
  intros Hstart Hfr Hs.
  destruct (run_start_fresh _ Hstart) as (Hinv & Hi & Hp & Hc).
  assert (Hpaced : forall t, paced t p).
  { intros t _ sc ts _ _. rewrite Hp. apply clamp_unit_range. }
  destruct (timestamps evs) as [|t0 rest] eqn:Hts.
  - apply (timelineTrace_sorted evs 0); auto.
    rewrite Hts. repeat constructor.
  - apply (timelineTrace_sorted evs t0); auto.
    rewrite Hts. constructor; [exact Hs|]. constructor. lra.
Qed.

Lemma Sorted_map {A B : Type} (R : A -> A -> Prop) (R' : B -> B -> Prop)
      (f : A -> B) (l : list A) :
  (forall a b, R a b -> R' (f a) (f b)) ->
  Sorted R l -> Sorted R' (map f l).
Proof.
  intros Hf Hs. induction Hs as [|a l Hs IH Hhd]; simpl; constructor; auto.
  destruct Hhd; simpl; constructor; auto.
Qed.

Lemma amount_le_trans (a b c : option Z) :
  amount_le a b -> amount_le b c -> amount_le a c.
Proof.
  destruct a, b, c; simpl; try tauto. apply Z.le_trans.
Qed.

(** X23: Over one run (from a mount or a replay, frames only, timestamps in
    non-decreasing order) the net worth shown is defined after every frame
    and never goes down from one frame to any later one. *)
Theorem netWorth_monotone (p : Player) (evs : list Event) :
  run_start p ->
  forallb isFrame evs = true ->
  Sorted Qle (timestamps evs) ->
  StronglySorted amount_le (map netWorth (stateTrace evs p)).
Proof.
  intros Hstart Hfr Hs.
  apply Sorted_StronglySorted; [exact amount_le_trans|].
  pose proof (run_timeline_sorted p evs Hstart Hfr Hs) as Ht.
  rewrite timelineTrace_stateTrace in Ht.
  apply (Sorted_map timeline_le amount_le
           (option_map (fun progress =>
                          (186000000 + Math_round (progress * 8000000))%Z)))
    in Ht.
  - rewrite map_map in Ht. exact Ht.
  - intros [x|] [y|]; cbn [timeline_le amount_le option_map]; try tauto.
    intros Hxy. apply Z.add_le_mono_l, Math_round_monotone. lra.
Qed.

Lemma netWorth_monotone_witness :
  let evs := [Frame 1 3250 3250; Frame 2 6500 6504; Frame 3 6520 6520] in
  map netWorth (stateTrace evs (mount 0))
  = [Some 186000000; Some 186762463; Some 187524927; Some 187528680]%Z
  /\ StronglySorted amount_le (map netWorth (stateTrace evs (mount 0))).
Proof.
  intros evs. split; [vm_compute; reflexivity|].
  apply (netWorth_monotone (mount 0) evs).
  - constructor.
  - reflexivity.
  - simpl. repeat constructor; discriminate.
Defined.

(** ** The frame loop *)

(** X24: In every reachable state the host holds exactly one frame callback
    while the run is in progress, the one the live effect requested last,
    and none once the run is complete: the loop neither stalls nor doubles
    up. *)
Theorem one_pending_callback (p : Player) :
  reachable p ->
  List.length (frames (host p))
  = (if isComplete (state p) then 0 else 1)%nat
  /\ (isComplete (state p) = false ->
      frames (host p) = [(animationFrame p, effect p)]
      /\ pendingCallback (animationFrame p) (frames (host p))
         = Some (effect p)
      /\ eff_sceneIndex (effect p) = sceneIndex (state p)).
Proof.
  intros Hr. pose proof (reachable_invariant _ Hr) as Hinv.
  pose proof (inv_frames _ Hinv) as Hf. rewrite Hf.
  destruct (isComplete (state p)); split; try reflexivity; try discriminate.
  intros _. split; [reflexivity|]. split; [|apply (inv_eff_index _ Hinv)].
  simpl. now rewrite Nat.eqb_refl.
Qed.

Lemma one_pending_callback_witness :
  List.length (frames (host (deliver (Frame 1 6500 6500) (mount 0)))) = 1%nat.
Proof.
  assert (Hr : reachable (deliver (Frame 1 6500 6500) (mount 0)))
    by (repeat constructor).
  destruct (one_pending_callback _ Hr) as [Hlen _]. exact Hlen.
Defined.

Lemma clamp_unit_below_one (value : Q) :
  clamp value 0 1 < 1 <-> value < 1.
Proof.
  split.
  - intros Hc. apply Qnot_le_lt. intros Hv.
    rewrite (clamp_unit_high value Hv) in Hc. lra.
  - intros Hv. unfold clamp.
    apply Qle_lt_trans with (Qmax 0 value); [apply Q.le_min_r|].
    apply Q.max_lub_lt; lra.
Qed.

Lemma clamp_unit_max (value : Q) :
  value < 1 -> clamp value 0 1 == Qmax 0 value.
Proof.
  intros Hv. unfold clamp. apply Q.min_r.
  apply Q.max_lub; lra.
Qed.

Lemma progressAt_below_one (p : Player) (sc : SceneDefinition) (timestamp : Q) :
  0 < inject_Z (duration sc) ->
  (progressAt p sc timestamp < 1
   <-> timestamp - start (effect p) < inject_Z (duration sc)).
Proof.
  intros Hd. unfold progressAt. rewrite clamp_unit_below_one. split.
  - intros Hlt.
    apply (Qmult_lt_compat_r _ _ (inject_Z (duration sc))) in Hlt; [|exact Hd].
    rewrite Qmult_1_l in Hlt.
    unfold Qdiv in Hlt. rewrite <- Qmult_assoc in Hlt.
    rewrite (Qmult_comm (/ inject_Z (duration sc))) in Hlt.
    rewrite Qmult_inv_r, Qmult_1_r in Hlt by lra. exact Hlt.
  - intros Hlt. apply Qlt_shift_div_r; [exact Hd | lra].
Qed.

(** X25: What the pending frame does to a running scene, by the progress
    [step] computes from the frame's timestamp.  While that progress is
    below 1 the scene stays, the progress is published (it is the elapsed
    fraction, or 0 if the frame's timestamp precedes the start) and the
    effect is kept.  Once it reaches 1 the scene is left, for the next scene
    at progress 0 with a new start, or for the complete state when it was
    the last.  A frame whose timestamp is a full duration or more past the
    start always computes 1; one that precedes the start computes 0. *)
Theorem scene_ends_when_due (p : Player) (sc : SceneDefinition)
        (timestamp now : Q) :
  reachable p ->
  isComplete (state p) = false ->
  nth_error SCENES (sceneIndex (state p)) = Some sc ->
  (progressAt p sc timestamp < 1 ->
   state (deliver (Frame (animationFrame p) timestamp now) p)
   = withProgress (state p) (progressAt p sc timestamp)
   /\ progressAt p sc timestamp
      == Qmax 0 ((timestamp - start (effect p)) / inject_Z (duration sc))
   /\ effect (deliver (Frame (animationFrame p) timestamp now) p) = effect p)
  /\ (1 <= progressAt p sc timestamp ->
      ((S (sceneIndex (state p)) < List.length SCENES)%nat ->
       state (deliver (Frame (animationFrame p) timestamp now) p)
       = {| sceneIndex := S (sceneIndex (state p)); sceneProgress := 0;
            runId := runId (state p); isComplete := false |}
       /\ start (effect (deliver (Frame (animationFrame p) timestamp now) p))
          = now)
      /\ (S (sceneIndex (state p)) = List.length SCENES ->
          state (deliver (Frame (animationFrame p) timestamp now) p)
          = {| sceneIndex := sceneIndex (state p); sceneProgress := 1;
               runId := runId (state p); isComplete := true |}))
  /\ (inject_Z (duration sc) <= timestamp - start (effect p) ->
      1 <= progressAt p sc timestamp)
  /\ (timestamp <= start (effect p) -> progressAt p sc timestamp == 0).
Proof.
  intros Hr Hc Hsc. pose proof (reachable_invariant _ Hr) as Hinv.
  destruct (scene_lookup_Q _ (inv_index _ Hinv)) as (sc' & Hsc' & Hd & _).
  rewrite Hsc in Hsc'. injection Hsc' as <-.
  pose proof (progressAt_below_one p sc timestamp Hd) as Hiff.
  assert (Hparts :
    (inject_Z (duration sc) <= timestamp - start (effect p) ->
     1 <= progressAt p sc timestamp)
    /\ (timestamp <= start (effect p) -> progressAt p sc timestamp == 0)).
  { split.
    - intros Hdue. apply Qnot_lt_le. intros Hlt. apply Hiff in Hlt. lra.
    - intros Hbefore. unfold progressAt. apply clamp_unit_low.
      apply Qle_shift_div_r; [exact Hd | lra]. }
  change (deliver (Frame (animationFrame p) timestamp now) p)
    with (deliverFrame (animationFrame p) timestamp now p).
  destruct (deliverFrame_outcome (animationFrame p) timestamp now p Hinv)
    as [ [Hx|Hx] | sc0 _ _ Hsc0 Hlt | sc0 _ _ Hsc0 Hge Hl | sc0 _ _ Hsc0 Hge Hl ];
    try congruence;
    rewrite Hsc in Hsc0; injection Hsc0 as <-;
    (split; [|split; [|exact Hparts]]).
  - intros _. cbn [state effect]. split; [reflexivity|].
    split; [|reflexivity].
    unfold progressAt. apply clamp_unit_max.
    unfold progressAt in Hlt. now apply clamp_unit_below_one.
  - intros Hdue. lra.
  - intros Hearly. lra.
  - intros _. split; [|lia].
    intros _. unfold useEffect, requestAnimationFrame.
    cbn [state effect start]. split; reflexivity.
  - intros Hearly. lra.
  - intros _. split; [lia|]. intros _. reflexivity.
Qed.

Lemma scene_ends_when_due_witness :
  state (deliver (Frame 1 6500 6510) (mount 0))
  = {| sceneIndex := 1; sceneProgress := 0; runId := 0; isComplete := false |}.
Proof.
  destruct (scene_ends_when_due (mount 0)
              {| id := "wake"; title := "First Light"; duration := 6500 |}
              6500 6510) as (_ & Hdue & _);
    [constructor | reflexivity | reflexivity |].
  destruct Hdue as [Hnext _]; [vm_compute; discriminate|].
  apply Hnext. vm_compute. lia.
Defined.

(** ** How many frames a run takes *)

Lemma run_too_short (evs : list Event) (p : Player) :
  invariant p -> isComplete (state p) = false ->
  forallb isFrame evs = true ->
  (List.length evs + sceneIndex (state p) < List.length SCENES)%nat ->
  isComplete (state (run evs p)) = false.
Proof.
  revert p. induction evs as [|ev evs IH]; intros p Hinv Hc Hfr Hlen; simpl.
  - exact Hc.
  - simpl in Hfr. apply andb_prop in Hfr as [Hev Hrest].
    destruct ev as [handle timestamp now | |]; try discriminate.
    cbn [List.length] in Hlen. cbn [deliver].
    pose proof (deliverFrame_outcome handle timestamp now p Hinv) as Hout.
    pose proof (frame_outcome_invariant _ _ _ _ _ Hinv Hout) as Hinv'.
    remember (deliverFrame handle timestamp now p) as p' eqn:Hp'. clear Hp'.
    destruct Hout as [ _ | sc _ _ _ _ | sc _ _ _ _ Hl | sc _ _ _ _ Hl ].
    + apply IH; auto. lia.
    + apply IH; auto. unfold withProgress. cbn [state sceneIndex]. lia.
    + apply IH; auto.
      unfold useEffect, requestAnimationFrame. cbn [state sceneIndex]. lia.
    + lia.
Qed.

Lemma dueFrame_leaves_scene (p : Player) :
  invariant p -> isComplete (state p) = false ->
  invariant (deliver (dueFrame p) p)
  /\ ((S (sceneIndex (state p)) < List.length SCENES)%nat ->
      sceneIndex (state (deliver (dueFrame p) p)) = S (sceneIndex (state p))
      /\ isComplete (state (deliver (dueFrame p) p)) = false)
  /\ (S (sceneIndex (state p)) = List.length SCENES ->
      isComplete (state (deliver (dueFrame p) p)) = true).
Proof.
  intros Hinv Hc.
  destruct (scene_lookup_Q _ (inv_index _ Hinv)) as (sc & Hsc & Hd & _).
  unfold dueFrame. rewrite (inv_eff_scene _ Hinv), Hsc. cbn [deliver].
  set (due := start (effect p) + inject_Z (duration sc)).
  pose proof (deliverFrame_outcome (animationFrame p) due due p Hinv) as Hout.
  pose proof (frame_outcome_invariant _ _ _ _ _ Hinv Hout) as Hinv'.
  split; [exact Hinv'|].
  assert (Hnot : ~ progressAt p sc due < 1).
  { rewrite (progressAt_below_one p sc due Hd). unfold due. lra. }
  destruct Hout as [ [Hx|Hx] | sc0 _ _ Hsc0 Hlt | sc0 _ _ _ _ Hl | sc0 _ _ _ _ Hl ];
    try congruence.
  - unfold useEffect, requestAnimationFrame. cbn [state sceneIndex isComplete].
    split; [auto | lia].
  - cbn [state sceneIndex isComplete]. split; [lia | auto].
Qed.

Lemma playOut_completes (n : nat) (p : Player) :
  invariant p -> isComplete (state p) = false ->
  (n + sceneIndex (state p) = List.length SCENES)%nat ->
  isComplete (state (playOut n p)) = true.
Proof.
  revert p. induction n as [|n IH]; intros p Hinv Hc Hn.
  - pose proof (inv_index _ Hinv) as Hi. rewrite SCENES_length in Hi, Hn. lia.
  - cbn [playOut].
    destruct (dueFrame_leaves_scene p Hinv Hc) as (Hinv' & Hnext & Hlast).
    destruct n as [|n].
    + cbn [playOut]. apply Hlast. rewrite <- Hn. reflexivity.
    + destruct Hnext as [Hi Hc']; [lia|].
      apply IH; auto. rewrite Hi. lia.
Qed.

(** X26: A run cannot be shortened and always can be finished: from a
    reachable running state at scene [i], no sequence of fewer than
    [N - i] frames, whatever their timestamps, completes the run, and
    [N - i] frames that are each delivered when the active scene is due
    do complete it. *)
Theorem run_takes_remaining_scenes (p : Player) :
  reachable p ->
  isComplete (state p) = false ->
  (forall evs, forallb isFrame evs = true ->
     (List.length evs < List.length SCENES - sceneIndex (state p))%nat ->
     isComplete (state (run evs p)) = false)
  /\ isComplete
       (state (playOut (List.length SCENES - sceneIndex (state p)) p))
     = true.
Proof.
  intros Hr Hc. pose proof (reachable_invariant _ Hr) as Hinv.
  pose proof (inv_index _ Hinv) as Hi.
  split.
  - intros evs Hfr Hlen. apply run_too_short; auto. lia.
  - apply playOut_completes; auto. lia.
Qed.

Lemma run_takes_remaining_scenes_witness :
  let p := deliver (Frame 1 6500 6510) (mount 0) in
  isComplete (state (playOut 4 p)) = true
  /\ isComplete (state (run [Frame 2 99999 99999; Frame 3 199999 199999;
                             Frame 4 299999 299999] p)) = false.
Proof.
  intros p.
  destruct (run_takes_remaining_scenes p) as [Hshort Hfull];
    [repeat constructor | reflexivity |].
  split; [exact Hfull|].
  apply Hshort; [reflexivity | vm_compute; lia].
Defined.

(** ** The run generation *)

Lemma step_keeps_runId (e : Effect) (timestamp : Q)
      (updates : list SetState) (again : bool) (st : PlayerState) :
  step e timestamp = Some (updates, again) ->
  runId (commit updates st) = runId st.
Proof.
  unfold step. destruct (scene e) as [sc|]; [|discriminate].
  destruct (Qle_bool 1 _); [destruct (_ <=? _)%nat|];
    intros [= <- <-]; reflexivity.
Qed.

Lemma deliverFrame_keeps_runId handle timestamp now (p : Player) :
  runId (state (deliverFrame handle timestamp now p)) = runId (state p).
Proof.
  unfold deliverFrame.
  destruct (pendingCallback handle (frames (host p))) as [callback|];
    [|reflexivity].
  destruct (step callback timestamp) as [[updates again]|] eqn:Hstep;
    [|reflexivity].
  destruct again; unfold requestAnimationFrame; rewrite rerender_state;
    cbn [state]; eapply step_keeps_runId; eassumption.
Qed.

(** X27: The run generation is changed by replays only: frames never change
    it, whatever the state of the component (reachable or not) and whatever
    callback they deliver; any event leaves it as it is or adds one; so
    over a sequence of events it never decreases and grows by at most the
    number of clicks and replays in the sequence. *)
Theorem generation_counts_replays (p : Player) :
  (forall evs, forallb isFrame evs = true ->
     runId (state (run evs p)) = runId (state p))
  /\ (forall evs,
        (runId (state p) <= runId (state (run evs p))
         <= runId (state p)
            + List.length (filter (fun ev => negb (isFrame ev)) evs))%nat).
Proof.
  assert (Hone : forall ev q,
             (runId (state q) <= runId (state (deliver ev q))
              <= runId (state q) + (if isFrame ev then 0 else 1))%nat).
  { intros [handle timestamp now | now | now] q; cbn [deliver isFrame].
    - rewrite deliverFrame_keeps_runId. lia.
    - destruct (replayButton (state q)) as [handler|] eqn:Hb; [|lia].
      unfold replayButton in Hb.
      destruct (isComplete (state q)); [|discriminate].
      injection Hb as <-. unfold invoke. rewrite rerender_state.
      cbn [state]. rewrite commit_handleReplay. simpl. lia.
    - unfold invoke. rewrite rerender_state.
      cbn [state]. rewrite commit_handleReplay. simpl. lia. }
  split.
  - intros evs. revert p. induction evs as [|ev evs IH]; intros p Hfr; simpl.
    + reflexivity.
    + simpl in Hfr. apply andb_prop in Hfr as [Hev Hrest].
      rewrite (IH _ Hrest).
      pose proof (Hone ev p) as H1. rewrite Hev in H1. lia.
  - intros evs. revert p. induction evs as [|ev evs IH]; intros p; simpl.
    + lia.
    + pose proof (IH (deliver ev p)) as H2. pose proof (Hone ev p) as H1.
      destruct (isFrame ev); simpl; lia.
Qed.
